(** * Agents, games and the agent factory of the repeated-game simulator

    A shallow embedding of [game/base_game.py], [agent/base_agent.py],
    [agent/simple_agent.py], [agent/med_agent.py], [agent/adv_agent.py] and
    [agent/agent_factory.py], followed by the properties of the
    specification that are proved or refuted on it.

    Conventions.
    - Python numbers (the [int] and [float] payoffs, rates and thresholds)
      are exact rationals in canonical form ([Qc]); rounding of binary
      floating point is not modelled.
    - A [dict] is a [gmap]; a [defaultdict] is a [gmap] whose reads insert
      the default, as in Python.
    - A raised exception is the [Raise] branch of [result].
    - The process-wide random source is an explicit state, [rng]. *)

From Stdlib Require Import QArith Qcanon ZArith List.
From stdpp Require Import base numbers option list strings gmap fin_maps.
Import ListNotations.

Local Open Scope string_scope.
Local Open Scope Z_scope.
Local Open Scope list_scope.

(** ** Python values *)

(** An integer literal. *)
Definition num (z : Z) : Qc := Q2Qc (inject_Z z).

(** A decimal literal such as [0.95], written [dec 95 100]. *)
Definition dec (a : Z) (b : positive) : Qc := Q2Qc (a # b).

Definition Qc_geb (x y : Qc) : bool := Qle_bool y x.
Definition Qc_gtb (x y : Qc) : bool := negb (Qle_bool x y).
Definition Qc_ltb (x y : Qc) : bool := negb (Qle_bool y x).
Definition Qc_eqb (x y : Qc) : bool := Qeq_bool x y.

(** The values an action list can hold: strings and numbers. *)
Inductive pyval : Type :=
  | PyStr (s : string)
  | PyNum (q : Qc).

Inductive exn : Type :=
  | AssertionError
  | KeyError
  | ValueError (msg : string)
  | TypeError
  | ZeroDivisionError.

Inductive result (A : Type) : Type :=
  | Ok (a : A)
  | Raise (e : exn).
Arguments Ok {A} a.
Arguments Raise {A} e.

#[global] Instance result_ret : MRet result := fun A a => Ok a.
#[global] Instance result_bind : MBind result := fun A B k m =>
  match m with
  | Ok a => k a
  | Raise e => Raise e
  end.

#[global] Instance result_fmap : FMap result := fun A B f m =>
  match m with
  | Ok a => Ok (f a)
  | Raise e => Raise e
  end.

(** [sum(xs)]: Python starts from the integer 0 and adds from the left. *)
Definition py_sum (xs : list Qc) : Qc := fold_left Qcplus xs 0%Qc.

(** [max(xs)] for a non-empty iterable; [None] stands for the ValueError
    Python raises on an empty one. *)
Definition py_max (xs : list Qc) : option Qc :=
  match xs with
  | [] => None
  | x :: rest => Some (fold_left (fun m y => if Qc_gtb y m then y else m) rest x)
  end.

(** ** Games ([game/base_game.py]) *)

Module PrisonersDilemma.

Record t : Type := { PAYOFF_MATRIX : gmap (string * string) (Qc * Qc) }.

(** [__init__(R, S, T, P)]: the assertion [T > R > P > S], then the
    matrix of the instance. *)
Definition init (R S T P : Qc) : result t :=
  if Qc_gtb T R && Qc_gtb R P && Qc_gtb P S then
    Ok {| PAYOFF_MATRIX :=
            <[("C", "C") := (R, R)]>
            (<[("C", "D") := (S, T)]>
            (<[("D", "C") := (T, S)]>
            (<[("D", "D") := (P, P)]> ∅))) |}
  else Raise AssertionError.

(** The defaults of the signature: [R=3, S=0, T=5, P=1]. *)
Definition default : result t := init (num 3) (num 0) (num 5) (num 1).

Definition play (g : t) (action1 action2 : string) : result (Qc * Qc) :=
  match PAYOFF_MATRIX g !! (action1, action2) with
  | Some payoffs => Ok payoffs
  | None => Raise KeyError
  end.

Definition get_actions (g : t) : list pyval := [PyStr "C"; PyStr "D"].

End PrisonersDilemma.

Module CoordinationGame.

Record t : Type := { PAYOFF_MATRIX : gmap (string * string) (Qc * Qc) }.

Definition init (high_payoff low_payoff mismatch : Qc) : t :=
  {| PAYOFF_MATRIX :=
       <[("A", "A") := (high_payoff, high_payoff)]>
       (<[("A", "B") := (mismatch, mismatch)]>
       (<[("B", "A") := (mismatch, mismatch)]>
       (<[("B", "B") := (low_payoff, low_payoff)]> ∅))) |}.

Definition default : t := init (num 4) (num 2) (num 0).

Definition play (g : t) (action1 action2 : string) : result (Qc * Qc) :=
  match PAYOFF_MATRIX g !! (action1, action2) with
  | Some payoffs => Ok payoffs
  | None => Raise KeyError
  end.

Definition get_actions (g : t) : list pyval := [PyStr "A"; PyStr "B"].

End CoordinationGame.

Module PublicGoodsGame.

Record t : Type := { n : Z; r : Qc; endowment : Qc }.

Definition init (n_players : Z) (multiplier endowment : Qc) : t :=
  {| n := n_players; r := multiplier; endowment := endowment |}.

(** [play(contributions)]: the length assertion, then
    [r * total / n] (a division by zero raises) and one payoff per
    contribution, in order. *)
Definition play (g : t) (contributions : list Qc) : result (list Qc) :=
  if Z.of_nat (length contributions) =? n g then
    let total_contribution := py_sum contributions in
    if n g =? 0 then Raise ZeroDivisionError
    else
      let public_benefit := (r g * total_contribution / num (n g))%Qc in
      Ok (map (fun c => (endowment g - c + public_benefit)%Qc) contributions)
  else Raise AssertionError.

Definition get_actions (g : t) : list pyval := [PyNum (num 0); PyNum (endowment g)].

End PublicGoodsGame.

(** The three game classes, and the token an agent is given for each. *)
Inductive Game : Type :=
  | GamePD (g : PrisonersDilemma.t)
  | GameCOORD (g : CoordinationGame.t)
  | GamePG (g : PublicGoodsGame.t).

Definition get_actions (g : Game) : list pyval :=
  match g with
  | GamePD g => PrisonersDilemma.get_actions g
  | GameCOORD g => CoordinationGame.get_actions g
  | GamePG g => PublicGoodsGame.get_actions g
  end.

Definition game_type (g : Game) : string :=
  match g with
  | GamePD _ => "PD"
  | GameCOORD _ => "COORD"
  | GamePG _ => "PG"
  end.

(** ** The random source ([random.random], [random.choice])

    The generator is an arbitrary tape: [uniform k] is the [k]-th value
    [random.random()] would return and [index k] the raw integer behind the
    [k]-th [random.choice]. Theorems quantify over every tape. *)

Record rng : Type := { uniform : nat -> Qc; index : nat -> nat; pos : nat }.

Definition advance (g : rng) : rng :=
  {| uniform := uniform g; index := index g; pos := S (pos g) |}.

Definition random_random (g : rng) : Qc * rng := (uniform g (pos g), advance g).

(** [random.choice(seq)] is [seq[randbelow(len(seq))]]. Both call sites
    pass a non-empty list (see [best_actions_nonempty]), so the IndexError
    of an empty sequence never arises and the default is never returned. *)
Definition random_choice (g : rng) (seq : list string) : string * rng :=
  (nth (index g (pos g) mod length seq)%nat seq "", advance g).

(** ** The base agent ([agent/base_agent.py]) *)

Record MemoryRecord : Type := {
  my_action : string;
  opponent_action : string;
  payoff : Qc;
  round : Z
}.

(** [collections.deque(maxlen=...)]: [append] adds on the right and, when
    the bound is exceeded, drops one element on the left. *)
Definition deque_append {A} (maxlen : nat) (d : list A) (x : A) : list A :=
  let d' := d ++ [x] in
  if (maxlen <? length d')%nat then tail d' else d'.

Module BaseAgent.

Record t : Type := {
  id : Z;
  memory : list MemoryRecord;
  memory_length : nat;
  total_payoff : Qc;
  round_count : Z
}.

Definition init (agent_id : Z) (memory_length : nat) : t :=
  {| id := agent_id; memory := []; memory_length := memory_length;
     total_payoff := 0%Qc; round_count := 0 |}.

Definition update (self : t) (my_action opponent_action : string) (payoff : Qc) : t :=
  {| id := id self;
     memory := deque_append (memory_length self) (memory self)
                 {| my_action := my_action; opponent_action := opponent_action;
                    payoff := payoff; round := round_count self |};
     memory_length := memory_length self;
     total_payoff := (total_payoff self + payoff)%Qc;
     round_count := round_count self + 1 |}.

Definition reset (self : t) : t :=
  {| id := id self; memory := []; memory_length := memory_length self;
     total_payoff := 0%Qc; round_count := 0 |}.

Definition get_last_opponent_action (self : t) : option string :=
  opponent_action <$> last (memory self).

End BaseAgent.

(** ** The strategies

    One constructor per class; the first argument is the state inherited
    from [BaseAgent], the others are the fields the class adds. *)

Inductive Agent : Type :=
  | AlwaysCooperate (base : BaseAgent.t)
  | AlwaysDefect (base : BaseAgent.t)
  | RandomAgent (base : BaseAgent.t) (coop_prob : Qc)
  | TitForTat (base : BaseAgent.t)
  | Pavlov (base : BaseAgent.t) (threshold : Qc) (last_action : option string)
  | GrimTrigger (base : BaseAgent.t) (triggered : bool)
  | QLearningAgent (base : BaseAgent.t) (alpha gamma epsilon : Qc)
      (q_table : gmap string (gmap string Qc))
  | FictitiousPlay (base : BaseAgent.t) (opponent_action_counts : gmap string Z).

Definition base (a : Agent) : BaseAgent.t :=
  match a with
  | AlwaysCooperate b | AlwaysDefect b | RandomAgent b _ | TitForTat b
  | Pavlov b _ _ | GrimTrigger b _ | QLearningAgent b _ _ _ _
  | FictitiousPlay b _ => b
  end.

(** The identifier under which [AgentFactory.AGENT_TYPES] registers the
    class of the agent. *)
Definition agent_type_of (a : Agent) : string :=
  match a with
  | AlwaysCooperate _ => "AllC"
  | AlwaysDefect _ => "AllD"
  | RandomAgent _ _ => "Random"
  | TitForTat _ => "TFT"
  | Pavlov _ _ _ => "Pavlov"
  | GrimTrigger _ _ => "Grim"
  | QLearningAgent _ _ _ _ _ => "Q-Learn"
  | FictitiousPlay _ _ => "Fictitious"
  end.

(** *** Reads of the nested [defaultdict] that holds the Q-table *)

(** [q_table[state]]: a missing state is inserted with an empty row. *)
Definition q_row (q_table : gmap string (gmap string Qc)) (state : string)
  : gmap string Qc * gmap string (gmap string Qc) :=
  let row := default ∅ (q_table !! state) in
  (row, <[state := row]> q_table).

(** [q_table[state][action]]: a missing action is inserted with [0.0]. *)
Definition q_read (q_table : gmap string (gmap string Qc)) (state action : string)
  : Qc * gmap string (gmap string Qc) :=
  let '(row, q_table) := q_row q_table state in
  match row !! action with
  | Some v => (v, q_table)
  | None => (0%Qc, <[state := <[action := 0%Qc]> row]> q_table)
  end.

(** [q_table[state][action] = v]. *)
Definition q_write (q_table : gmap string (gmap string Qc)) (state action : string)
  (v : Qc) : gmap string (gmap string Qc) :=
  let '(row, q_table) := q_row q_table state in
  <[state := <[action := v]> row]> q_table.

(** [dict.values()], as a list. *)
Definition values {V} (m : gmap string V) : list V := snd <$> map_to_list m.

(** [QLearningAgent._get_state]: [None] and the empty string are falsy. *)
Definition _get_state (b : BaseAgent.t) : string :=
  match BaseAgent.get_last_opponent_action b with
  | Some last_opponent => if String.eqb last_opponent "" then "init" else last_opponent
  | None => "init"
  end.

(** [FictitiousPlay._get_opponent_probability]; the read of
    [opponent_action_counts[action]] inserts a missing key with [0]. *)
Definition _get_opponent_probability (counts : gmap string Z) (action : string)
  : Qc * gmap string Z :=
  let total := fold_left Z.add (values counts) 0 in
  if total =? 0 then (dec 1 2, counts)
  else
    let c := default 0 (counts !! action) in
    ((num c / num total)%Qc, <[action := c]> counts).

(** *** [choose_action]

    The result is the action, the agent after the call (Pavlov records its
    choice, the adaptive agents' [defaultdict] reads insert defaults) and
    the random source after the call. Pavlov's [last_action] is [None]
    until the first call; it is set whenever the memory is not empty, so
    the default of the win-stay branch is never returned. *)

Definition choose_action (self : Agent) (game_type : string) (g : rng)
  : string * Agent * rng :=
  match self with
  | AlwaysCooperate _ =>
      if String.eqb game_type "PD" then ("C", self, g)
      else if String.eqb game_type "COORD" then ("A", self, g)
      else ("C", self, g)
  | AlwaysDefect _ =>
      if String.eqb game_type "PD" then ("D", self, g)
      else if String.eqb game_type "COORD" then ("B", self, g)
      else ("D", self, g)
  | RandomAgent _ coop_prob =>
      let '(u, g) := random_random g in
      if Qc_ltb u coop_prob
      then (if String.eqb game_type "PD" then "C" else "A", self, g)
      else (if String.eqb game_type "PD" then "D" else "B", self, g)
  | TitForTat b =>
      match BaseAgent.get_last_opponent_action b with
      | None => (if String.eqb game_type "PD" then "C" else "A", self, g)
      | Some last_opponent => (last_opponent, self, g)
      end
  | Pavlov b threshold last_action =>
      match last (BaseAgent.memory b) with
      | None =>
          let a := if String.eqb game_type "PD" then "C" else "A" in
          (a, Pavlov b threshold (Some a), g)
      | Some rec =>
          let last_payoff := payoff rec in
          if Qc_geb last_payoff threshold then (default "" last_action, self, g)
          else
            let a :=
              if String.eqb game_type "PD"
              then (if decide (last_action = Some "C") then "D" else "C")
              else (if decide (last_action = Some "A") then "B" else "A") in
            (a, Pavlov b threshold (Some a), g)
      end
  | GrimTrigger _ triggered =>
      if triggered then (if String.eqb game_type "PD" then "D" else "B", self, g)
      else (if String.eqb game_type "PD" then "C" else "A", self, g)
  | QLearningAgent b alpha gamma epsilon q_table =>
      let state := _get_state b in
      let actions := if String.eqb game_type "PD" then ["C"; "D"] else ["A"; "B"] in
      let '(u, g) := random_random g in
      if Qc_ltb u epsilon then
        let '(a, g) := random_choice g actions in (a, self, g)
      else
        let '(q_values, q_table) :=
          fold_left (fun '(acc, t) a => let '(v, t) := q_read t state a in (acc ++ [(a, v)], t))
                    actions ([], q_table) in
        let max_q := default 0%Qc (py_max (snd <$> q_values)) in
        let best_actions := fst <$> filter (fun '(a, q) => Qc_eqb q max_q = true) q_values in
        let '(a, g) := random_choice g best_actions in
        (a, QLearningAgent b alpha gamma epsilon q_table, g)
  | FictitiousPlay b counts =>
      if fold_left Z.add (values counts) 0 <? 2 then
        (if String.eqb game_type "PD" then "C" else "A", self, g)
      else if String.eqb game_type "PD" then
        let '(p_coop, counts) := _get_opponent_probability counts "C" in
        let e_cooperate := (num 3 * p_coop + num 0 * (num 1 - p_coop))%Qc in
        let e_defect := (num 5 * p_coop + num 1 * (num 1 - p_coop))%Qc in
        (if Qc_geb e_cooperate e_defect then "C" else "D", FictitiousPlay b counts, g)
      else
        let '(p_a, counts) := _get_opponent_probability counts "A" in
        let e_a := (num 4 * p_a)%Qc in
        let e_b := (num 2 * (num 1 - p_a))%Qc in
        (if Qc_geb e_a e_b then "A" else "B", FictitiousPlay b counts, g)
  end.

(** *** [update] *)

Definition update (self : Agent) (my_action opponent_action : string) (payoff : Qc) : Agent :=
  match self with
  | AlwaysCooperate b => AlwaysCooperate (BaseAgent.update b my_action opponent_action payoff)
  | AlwaysDefect b => AlwaysDefect (BaseAgent.update b my_action opponent_action payoff)
  | RandomAgent b p => RandomAgent (BaseAgent.update b my_action opponent_action payoff) p
  | TitForTat b => TitForTat (BaseAgent.update b my_action opponent_action payoff)
  | Pavlov b threshold _ =>
      Pavlov (BaseAgent.update b my_action opponent_action payoff) threshold (Some my_action)
  | GrimTrigger b triggered =>
      GrimTrigger (BaseAgent.update b my_action opponent_action payoff)
        (if decide (opponent_action ∈ ["D"; "B"]) then true else triggered)
  | QLearningAgent b alpha gamma epsilon q_table =>
      let old_state := _get_state b in
      let b := BaseAgent.update b my_action opponent_action payoff in
      let new_state := opponent_action in
      let '(old_q, q_table) := q_read q_table old_state my_action in
      let '(next_row, q_table) := q_row q_table new_state in
      let max_next_q := default 0%Qc (py_max (values next_row)) in
      let new_q := (old_q + alpha * (payoff + gamma * max_next_q - old_q))%Qc in
      QLearningAgent b alpha gamma epsilon (q_write q_table old_state my_action new_q)
  | FictitiousPlay b counts =>
      FictitiousPlay (BaseAgent.update b my_action opponent_action payoff)
        (<[opponent_action := default 0 (counts !! opponent_action) + 1]> counts)
  end.

(** *** [reset] *)

Definition reset (self : Agent) : Agent :=
  match self with
  | AlwaysCooperate b => AlwaysCooperate (BaseAgent.reset b)
  | AlwaysDefect b => AlwaysDefect (BaseAgent.reset b)
  | RandomAgent b p => RandomAgent (BaseAgent.reset b) p
  | TitForTat b => TitForTat (BaseAgent.reset b)
  | Pavlov b threshold last_action => Pavlov (BaseAgent.reset b) threshold last_action
  | GrimTrigger b _ => GrimTrigger (BaseAgent.reset b) false
  | QLearningAgent b alpha gamma epsilon q_table =>
      QLearningAgent (BaseAgent.reset b) alpha gamma epsilon q_table
  | FictitiousPlay b _ => FictitiousPlay (BaseAgent.reset b) ∅
  end.

(** ** The factory ([agent/agent_factory.py]) *)

(** The classes the registry maps to. *)
Inductive agent_class : Type :=
  | cls_AlwaysCooperate | cls_AlwaysDefect | cls_RandomAgent
  | cls_TitForTat | cls_Pavlov | cls_GrimTrigger
  | cls_QLearningAgent | cls_FictitiousPlay.

(** A call [cls(agent_id, **kwargs)]: a keyword the signature of
    [__init__] does not declare is a TypeError, a declared one that is
    absent takes the default of the signature. *)
Definition construct (c : agent_class) (agent_id : Z) (kwargs : gmap string Qc)
  : result Agent :=
  let accepts (declared : list string) :=
    bool_decide (dom kwargs ⊆ (list_to_set declared : gset string)) in
  let arg (name : string) (dflt : Qc) := default dflt (kwargs !! name) in
  match c with
  | cls_AlwaysCooperate =>
      if accepts [] then Ok (AlwaysCooperate (BaseAgent.init agent_id 0)) else Raise TypeError
  | cls_AlwaysDefect =>
      if accepts [] then Ok (AlwaysDefect (BaseAgent.init agent_id 0)) else Raise TypeError
  | cls_RandomAgent =>
      if accepts ["coop_probability"]
      then Ok (RandomAgent (BaseAgent.init agent_id 0) (arg "coop_probability" (dec 1 2)))
      else Raise TypeError
  | cls_TitForTat =>
      if accepts [] then Ok (TitForTat (BaseAgent.init agent_id 1)) else Raise TypeError
  | cls_Pavlov =>
      if accepts ["threshold"]
      then Ok (Pavlov (BaseAgent.init agent_id 1) (arg "threshold" (num 2)) None)
      else Raise TypeError
  | cls_GrimTrigger =>
      if accepts [] then Ok (GrimTrigger (BaseAgent.init agent_id 100) false) else Raise TypeError
  | cls_QLearningAgent =>
      if accepts ["learning_rate"; "discount_factor"; "epsilon"]
      then Ok (QLearningAgent (BaseAgent.init agent_id 50)
                 (arg "learning_rate" (dec 1 10))
                 (arg "discount_factor" (dec 95 100))
                 (arg "epsilon" (dec 1 10)) ∅)
      else Raise TypeError
  | cls_FictitiousPlay =>
      if accepts [] then Ok (FictitiousPlay (BaseAgent.init agent_id 100) ∅) else Raise TypeError
  end.

Module AgentFactory.

Definition AGENT_TYPES : gmap string agent_class :=
  list_to_map
    [("AllC", cls_AlwaysCooperate); ("AllD", cls_AlwaysDefect);
     ("Random", cls_RandomAgent);
     ("TFT", cls_TitForTat); ("Pavlov", cls_Pavlov); ("Grim", cls_GrimTrigger);
     ("Q-Learn", cls_QLearningAgent); ("Fictitious", cls_FictitiousPlay)].

Definition create (agent_type : string) (agent_id : Z) (kwargs : gmap string Qc)
  : result Agent :=
  match AGENT_TYPES !! agent_type with
  | None => Raise (ValueError ("Unknown agent type: " +:+ agent_type))
  | Some c => construct c agent_id kwargs
  end.

(** [[cls.create(agent_type, i, **kwargs) for i in range(n)]] *)
Fixpoint create_from (agent_type : string) (i : Z) (count : nat)
  (kwargs : gmap string Qc) : result (list Agent) :=
  match count with
  | O => Ok []
  | S count =>
      a ← create agent_type i kwargs;
      rest ← create_from agent_type (i + 1) count kwargs;
      Ok (a :: rest)
  end.

Definition create_population (agent_type : string) (n : Z) (kwargs : gmap string Qc)
  : result (list Agent) :=
  create_from agent_type 0 (Z.to_nat n) kwargs.

(** The inner loop of [create_mixed_population]: [count] iterations of
    [agents.append(cls.create(agent_type, current_id)); current_id += 1]. *)
Fixpoint append_agents (agent_type : string) (count : nat)
  (agents : list Agent) (current_id : Z) : result (list Agent * Z) :=
  match count with
  | O => Ok (agents, current_id)
  | S count =>
      a ← create agent_type current_id ∅;
      append_agents agent_type count (agents ++ [a]) (current_id + 1)
  end.

(** The outer loop, over [composition.items()] in the dict's order. *)
Fixpoint mixed_loop (items : list (string * Z)) (agents : list Agent) (current_id : Z)
  : result (list Agent) :=
  match items with
  | [] => Ok agents
  | (agent_type, count) :: items =>
      '(agents, current_id) ← append_agents agent_type (Z.to_nat count) agents current_id;
      mixed_loop items agents current_id
  end.

Definition create_mixed_population (composition : list (string * Z)) (start_id : Z)
  : result (list Agent) :=
  mixed_loop composition [] start_id.

End AgentFactory.

Definition agent_id (a : Agent) : Z := BaseAgent.id (base a).

(** ** Driving an agent

    The external driver issues [choose_action], [update] and [reset]
    calls; a session is a list of such calls. *)

Inductive event : Type :=
  | Choose (game_type : string)
  | Update (my_action opponent_action : string) (payoff : Qc)
  | Reset.

Definition step (st : Agent * rng) (e : event) : Agent * rng :=
  match e with
  | Choose game_type => let '(_, a, g) := choose_action st.1 game_type st.2 in (a, g)
  | Update my_action opponent_action payoff =>
      (update st.1 my_action opponent_action payoff, st.2)
  | Reset => (reset st.1, st.2)
  end.

Definition run (evs : list event) (st : Agent * rng) : Agent * rng :=
  fold_left step evs st.

(** The action a [choose_action] call returns. *)
Definition action_of (out : string * Agent * rng) : string := out.1.1.

(** * The vocabulary of the properties *)

(** The sum of the contributions, as the specification writes it. *)
Definition total (c : list Qc) : Qc := foldr Qcplus 0%Qc c.

(** The identifiers of the registry. *)
Definition registry : list string :=
  ["AllC"; "AllD"; "Random"; "TFT"; "Pavlov"; "Grim"; "Q-Learn"; "Fictitious"].

(** The strategy identifiers a composition asks for, one per agent, in the
    order of the mapping. *)
Definition expected_types (composition : list (string * Z)) : list string :=
  mjoin ((fun '(t, count) => replicate (Z.to_nat count) t) <$> composition).

(** The parameters an agent has when its constructor is called with the id
    alone. *)
Definition has_default_parameters (a : Agent) : Prop :=
  match a with
  | RandomAgent _ coop_prob => coop_prob = dec 1 2
  | Pavlov _ threshold _ => threshold = num 2
  | QLearningAgent _ alpha gamma epsilon _ =>
      alpha = dec 1 10 /\ gamma = dec 95 100 /\ epsilon = dec 1 10
  | _ => True
  end.

(** The symbols of the two-action games, as the agents map them. *)
Definition cooperate_symbol (game_type : string) : string :=
  if decide (game_type = "PD") then "C" else "A".

Definition defect_symbol (game_type : string) : string :=
  if decide (game_type = "PD") then "D" else "B".

(** The Defecting state of Grim Trigger. *)
Definition is_triggered (a : Agent) : Prop :=
  exists b, a = GrimTrigger b true.

(** The two actions an agent considers for a game type. *)
Definition actions_of (game_type : string) : list string :=
  if decide (game_type = "PD") then ["C"; "D"] else ["A"; "B"].

(** The other symbol of a two-symbol alphabet; [None] for a symbol that
    is not in it. *)
Definition other_symbol (alphabet : list string) (a : string) : option string :=
  match filter (fun x => x <> a) alphabet with
  | [b] => if decide (a ∈ alphabet) then Some b else None
  | _ => None
  end.

(** A Pavlov agent as its constructor sizes it: memory bound 1. *)
Definition is_pavlov (threshold : Qc) (a : Agent) : Prop :=
  exists b last_action,
    a = Pavlov b threshold last_action /\ BaseAgent.memory_length b = 1%nat.

(** The learned state of the adaptive agents. *)
Definition q_table_of (a : Agent) : gmap string (gmap string Qc) :=
  match a with
  | QLearningAgent _ _ _ _ q_table => q_table
  | _ => ∅
  end.

Definition opponent_action_counts_of (a : Agent) : gmap string Z :=
  match a with
  | FictitiousPlay _ counts => counts
  | _ => ∅
  end.






(** A tape for the concrete runs below. *)
Definition rng0 : rng := {| uniform := fun _ => 0%Qc; index := fun _ => 0%nat; pos := 0 |}.

(** The value stored for a state and an action, if any. *)
Definition stored (q_table : gmap string (gmap string Qc)) (s a : string) : option Qc :=
  q_table !! s ≫= (.!! a).

(** The same, an unseen pair counting as zero. *)
Definition stored_or_zero (q_table : gmap string (gmap string Qc)) (s a : string) : Qc :=
  default 0%Qc (stored q_table s a).

(** The values stored under a state. *)
Definition row (q_table : gmap string (gmap string Qc)) (s : string) : gmap string Qc :=
  default ∅ (q_table !! s).

(** The maximum of the values of a row, zero for a row without values. *)
Definition max_stored (r : gmap string Qc) : Qc := default 0%Qc (py_max (values r)).

(** The value the update rule prescribes, the maximum being taken over
    the values stored under [s'] when the update starts. *)
Definition update_rule (alpha gamma : Qc) (q_table : gmap string (gmap string Qc))
  (s a s' : string) (r : Qc) : Qc :=
  let old := stored_or_zero q_table s a in
  (old + alpha * (r + gamma * max_stored (row q_table s') - old))%Qc.

(** What the history-dependent strategies remember stays within the
    alphabet of the game type: the opponent actions Tit-for-Tat may replay,
    and Pavlov's last action, which is set whenever the memory is not
    empty. *)
Definition alphabet_inv (game_type : string) (a : Agent) : Prop :=
  match a with
  | TitForTat b =>
      Forall (fun rec => opponent_action rec ∈ actions_of game_type) (BaseAgent.memory b)
  | Pavlov b _ last_action =>
      (forall x, last_action = Some x -> x ∈ actions_of game_type) /\
      (BaseAgent.memory b <> [] -> is_Some last_action)
  | _ => True
  end.

(** A call of a session on one game type, reporting actions of its
    alphabet. *)
Definition event_ok (game_type : string) (e : event) : Prop :=
  match e with
  | Choose gt => gt = game_type
  | Update my_action opponent_action _ =>
      my_action ∈ actions_of game_type /\ opponent_action ∈ actions_of game_type
  | Reset => True
  end.

(** The [update] calls of a session since its last [reset], oldest
    first, as triples (own action, opponent action, payoff). *)
Definition history_step (h : list (string * string * Qc)) (e : event)
  : list (string * string * Qc) :=
  match e with
  | Choose _ => h
  | Update my_action opponent_action payoff => h ++ [(my_action, opponent_action, payoff)]
  | Reset => []
  end.

Definition history (evs : list event) : list (string * string * Qc) :=
  fold_left history_step evs [].

(** The memory records these calls produce: the [k]-th call is tagged with
    round [k]. *)
Definition records (h : list (string * string * Qc)) : list MemoryRecord :=
  imap (fun k x => {| my_action := x.1.1; opponent_action := x.1.2;
                      payoff := x.2; round := Z.of_nat k |}) h.

(** The last [k] elements of a list (all of it when it is shorter). *)
Definition most_recent {A} (k : nat) (l : list A) : list A := drop (length l - k) l.

(** The capacity each constructor gives the memory. *)
Definition capacity (agent_type : string) : nat :=
  if decide (agent_type ∈ ["AllC"; "AllD"; "Random"]) then 0
  else if decide (agent_type ∈ ["TFT"; "Pavlov"]) then 1
  else if decide (agent_type = "Q-Learn") then 50
  else 100.

(** The inherited state is a function of the calls since the last reset. *)
Definition bookkeeping (capacity : nat) (id : Z) (b : BaseAgent.t)
  (h : list (string * string * Qc)) : Prop :=
  BaseAgent.id b = id /\
  BaseAgent.memory_length b = capacity /\
  BaseAgent.memory b = most_recent capacity (records h) /\
  BaseAgent.total_payoff b = py_sum (h.*2) /\
  BaseAgent.round_count b = Z.of_nat (length h).

(** Some [update] of the history reported the opponent playing 'D' or
    'B'. *)
Definition defected (h : list (string * string * Qc)) : Prop :=
  Exists (fun x => x.1.2 ∈ ["D"; "B"]) h.

(** The state Grim Trigger is in after a history. *)
Definition grim_state (a : Agent) (h : list (string * string * Qc)) : Prop :=
  exists b, a = GrimTrigger b (bool_decide (defected h)).

(** The row under [s'] at the moment [update] takes its maximum: when
    [s' = s] the entry for [a] is present, with its former value or zero. *)
Definition next_row (q_table : gmap string (gmap string Qc)) (s a s' : string)
  : gmap string Qc :=
  if decide (s' = s) then <[a := stored_or_zero q_table s a]> (row q_table s)
  else row q_table s'.


(** * Properties *)

(** ** Comparisons on numbers *)

Lemma Qc_gtb_lt (x y : Qc) : Qc_gtb x y = true <-> (y < x)%Qc.
Proof.
  unfold Qc_gtb. rewrite negb_true_iff, <- not_true_iff_false, Qle_bool_iff.
  split; [apply Qcnot_le_lt | apply Qclt_not_le].
Qed.

Lemma Qc_geb_le (x y : Qc) : Qc_geb x y = true <-> (y <= x)%Qc.
Proof. unfold Qc_geb. apply Qle_bool_iff. Qed.

Lemma Qc_ltb_lt (x y : Qc) : Qc_ltb x y = true <-> (x < y)%Qc.
Proof. apply Qc_gtb_lt. Qed.

Lemma Qc_eqb_eq (x y : Qc) : Qc_eqb x y = true <-> x = y.
Proof.
  unfold Qc_eqb. rewrite Qeq_bool_iff. split; [apply Qc_is_canon | by intros ->].
Qed.




(** Closed equations between numbers: evaluate both sides and compare
    them as fractions. *)
Ltac qc_compute :=
  vm_compute; repeat f_equal;
  try (apply Qc_is_canon, Qeq_bool_iff; vm_compute); reflexivity.

(** ** C7: the Prisoner's Dilemma *)

Section PrisonersDilemma_facts.

Variables R S T P : Qc.

Lemma pd_init_ok :
  (R < T)%Qc -> (P < R)%Qc -> (S < P)%Qc ->
  PrisonersDilemma.init R S T P =
    Ok {| PrisonersDilemma.PAYOFF_MATRIX :=
            <[("C", "C") := (R, R)]>
            (<[("C", "D") := (S, T)]>
            (<[("D", "C") := (T, S)]>
            (<[("D", "D") := (P, P)]> ∅))) |}.
Proof.
  intros H1 H2 H3. unfold PrisonersDilemma.init.
  apply Qc_gtb_lt in H1, H2, H3. by rewrite H1, H2, H3.
Qed.

Lemma pd_init_fails :
  ~ ((R < T)%Qc /\ (P < R)%Qc /\ (S < P)%Qc) ->
  PrisonersDilemma.init R S T P = Raise AssertionError.
Proof.
  intros H. unfold PrisonersDilemma.init.
  destruct (Qc_gtb T R) eqn:H1; [|done].
  destruct (Qc_gtb R P) eqn:H2; [|done].
  destruct (Qc_gtb P S) eqn:H3; [|done].
  apply Qc_gtb_lt in H1, H2, H3. tauto.
Qed.

End PrisonersDilemma_facts.

(** C7. Construction fails (with the assertion error) exactly when
    [T > R > P > S] is violated; otherwise it succeeds and [play] maps CC to
    [(R,R)], CD to [(S,T)], DC to [(T,S)] and DD to [(P,P)]. With
    [R=3, S=0, T=5, P=1], [play('C','C')] is [(3,3)] and [play('C','D')] is
    [(0,5)]. *)
Theorem C7_prisoners_dilemma_construction (R S T P : Qc) :
  (PrisonersDilemma.init R S T P = Raise AssertionError
     <-> ~ ((R < T)%Qc /\ (P < R)%Qc /\ (S < P)%Qc)) /\
  (((R < T)%Qc /\ (P < R)%Qc /\ (S < P)%Qc) <->
     exists g, PrisonersDilemma.init R S T P = Ok g /\
       PrisonersDilemma.play g "C" "C" = Ok (R, R) /\
       PrisonersDilemma.play g "C" "D" = Ok (S, T) /\
       PrisonersDilemma.play g "D" "C" = Ok (T, S) /\
       PrisonersDilemma.play g "D" "D" = Ok (P, P)) /\
  (g ← PrisonersDilemma.init (num 3) (num 0) (num 5) (num 1);
   PrisonersDilemma.play g "C" "C") = Ok (num 3, num 3) /\
  (g ← PrisonersDilemma.init (num 3) (num 0) (num 5) (num 1);
   PrisonersDilemma.play g "C" "D") = Ok (num 0, num 5).
Proof.
  split; [|split; [|split; vm_compute; reflexivity]].
  - split.
    + intros Hinit (H1 & H2 & H3).
      rewrite (pd_init_ok R S T P H1 H2 H3) in Hinit. discriminate.
    + apply pd_init_fails.
  - split.
    + intros (H1 & H2 & H3). eexists.
      split; [exact (pd_init_ok R S T P H1 H2 H3)|]. by repeat split.
    + intros (g & Hg & _).
      destruct (decide ((R < T)%Qc /\ (P < R)%Qc /\ (S < P)%Qc)) as [Hord|Hord]; [done|].
      rewrite (pd_init_fails R S T P Hord) in Hg. discriminate.
Qed.

(** ** C8: the Public Goods Game *)





(** Outside the theorem's range: a game built for no player divides by
    zero on the empty contribution vector. *)
Lemma public_goods_no_players (r e : Qc) :
  PublicGoodsGame.play (PublicGoodsGame.init 0 r e) [] = Raise ZeroDivisionError.
Proof. reflexivity. Qed.

(** ** C9, C10: the factory *)

Lemma registry_lookup_None (t : string) :
  AgentFactory.AGENT_TYPES !! t = None <-> t ∉ registry.
Proof. unfold AgentFactory.AGENT_TYPES. by rewrite <- not_elem_of_list_to_map. Qed.

Ltac registry_cases H :=
  unfold registry in H;
  repeat (apply elem_of_cons in H as [->|H]); [..|by apply elem_of_nil in H].

Lemma construct_not_ValueError c id kw msg :
  construct c id kw <> Raise (ValueError msg).
Proof.
  destruct c; simpl;
    match goal with |- context [bool_decide ?P] => destruct (bool_decide P) end;
    discriminate.
Qed.

(** Without keyword arguments a registered identifier always yields an
    agent of its class, with the requested id. *)
Lemma create_default_ok (t : string) (id : Z) :
  t ∈ registry ->
  exists a, AgentFactory.create t id ∅ = Ok a /\ agent_type_of a = t /\ agent_id a = id.
Proof.
  intros H. registry_cases H; eexists; (split; [vm_compute; reflexivity|]); by split.
Qed.

Lemma append_agents_ok (t : string) (count : nat) (agents : list Agent) (cur : Z) :
  t ∈ registry ->
  exists new,
    AgentFactory.append_agents t count agents cur = Ok (agents ++ new, cur + Z.of_nat count) /\
    agent_type_of <$> new = replicate count t /\
    agent_id <$> new = seqZ cur (Z.of_nat count) /\
    Forall (fun a => exists id, AgentFactory.create t id ∅ = Ok a) new.
Proof.
  intros Ht. revert agents cur.
  induction count as [|count IH]; intros agents cur.
  - exists []. simpl. rewrite app_nil_r, Z.add_0_r. by repeat split.
  - destruct (create_default_ok t cur Ht) as (a & Ha & Hty & Hid).
    destruct (IH (agents ++ [a]) (cur + 1)) as (new & Hrun & Htys & Hids & Hall).
    exists (a :: new). cbn [AgentFactory.append_agents]. rewrite Ha.
    unfold mbind, result_bind; cbn beta iota.
    rewrite Hrun, <- app_assoc.
    replace (cur + 1 + Z.of_nat count) with (cur + Z.of_nat (S count)) by lia.
    split; [done|]. rewrite !fmap_cons, Htys, Hty, Hid, Hids.
    split; [done|]. split.
    + rewrite (seqZ_cons cur) by lia. f_equal. f_equal; lia.
    + constructor; [by exists cur | done].
Qed.

Lemma mixed_loop_ok (items : list (string * Z)) (agents : list Agent) (cur : Z) :
  Forall (fun item => item.1 ∈ registry) items ->
  exists new,
    AgentFactory.mixed_loop items agents cur = Ok (agents ++ new) /\
    agent_type_of <$> new = expected_types items /\
    agent_id <$> new = seqZ cur (Z.of_nat (length new)) /\
    Forall (fun a => exists id, AgentFactory.create (agent_type_of a) id ∅ = Ok a) new.
Proof.
  intros Hreg. revert agents cur.
  induction Hreg as [|[t count] items Ht _ IH]; intros agents cur.
  - exists []. simpl. by rewrite app_nil_r.
  - destruct (append_agents_ok t (Z.to_nat count) agents cur Ht)
      as (new1 & Hrun1 & Htys1 & Hids1 & Hall1).
    destruct (IH (agents ++ new1) (cur + Z.of_nat (Z.to_nat count)))
      as (new2 & Hrun2 & Htys2 & Hids2 & Hall2).
    exists (new1 ++ new2). cbn [AgentFactory.mixed_loop]. rewrite Hrun1.
    unfold mbind, result_bind; cbn beta iota.
    rewrite Hrun2, <- app_assoc. split; [done|].
    assert (length new1 = Z.to_nat count) as Hlen1.
    { rewrite <- (length_fmap agent_type_of), Htys1. apply length_replicate. }
    rewrite !fmap_app, Htys1, Htys2, Hids1, Hids2.
    split; [done|]. split.
    + rewrite length_app, Nat2Z.inj_add, Hlen1.
      rewrite seqZ_app by lia. done.
    + apply Forall_app. split; [|done].
      rewrite Forall_forall in Hall1. apply Forall_forall. intros a Ha.
      assert (agent_type_of a = t) as ->; [|by apply Hall1].
      apply (list_elem_of_fmap_2 agent_type_of) in Ha.
      rewrite Htys1 in Ha. by apply elem_of_replicate_inv in Ha.
Qed.

(** C9. [create] raises the ValueError exactly for an identifier outside
    the registry; [create_mixed_population], on a composition of registered
    identifiers, returns the agents grouped by strategy in the order of the
    mapping, with consecutive ids from [start_id]. The composition
    [{"TFT": 2, "AllD": 1}] with [start_id = 10] gives three agents with
    ids 10, 11, 12. *)
Theorem C9_factory_create_and_mixed_population :
  (forall (t : string) (id : Z) (kwargs : gmap string Qc),
     (exists msg, AgentFactory.create t id kwargs = Raise (ValueError msg))
     <-> t ∉ registry) /\
  (forall (composition : list (string * Z)) (start_id : Z),
     Forall (fun item => item.1 ∈ registry) composition ->
     exists agents,
       AgentFactory.create_mixed_population composition start_id = Ok agents /\
       agent_type_of <$> agents = expected_types composition /\
       agent_id <$> agents = seqZ start_id (Z.of_nat (length agents))) /\
  (fun l : list Agent => (agent_id <$> l, agent_type_of <$> l)) <$>
    AgentFactory.create_mixed_population [("TFT", 2); ("AllD", 1)] 10
  = Ok ([10; 11; 12], ["TFT"; "TFT"; "AllD"]).
Proof.
  split; [|split].
  - intros t id kwargs. rewrite <- registry_lookup_None.
    unfold AgentFactory.create.
    destruct (AgentFactory.AGENT_TYPES !! t) as [c|]; split.
    + intros [msg H]. by apply construct_not_ValueError in H.
    + discriminate.
    + done.
    + intros _. by eexists.
  - intros composition start_id Hreg.
    destruct (mixed_loop_ok composition [] start_id Hreg) as (new & Hrun & Htys & Hids & _).
    exists new. by repeat split.
  - vm_compute. reflexivity.
Qed.

Lemma C9_factory_create_and_mixed_population_witness :
  exists agents,
    AgentFactory.create_mixed_population [("Grim", 1); ("Q-Learn", 2)] 5 = Ok agents /\
    agent_type_of <$> agents = expected_types [("Grim", 1); ("Q-Learn", 2)] /\
    agent_id <$> agents = seqZ 5 (Z.of_nat (length agents)).
Proof.
  apply (proj1 (proj2 C9_factory_create_and_mixed_population)).
  repeat constructor; simpl; unfold registry; set_solver.
Defined.

Lemma create_empty_defaults (t : string) (id : Z) (a : Agent) :
  AgentFactory.create t id ∅ = Ok a -> has_default_parameters a.
Proof.
  unfold AgentFactory.create.
  destruct (AgentFactory.AGENT_TYPES !! t) as [c|]; [|discriminate].
  destruct c; vm_compute; intros [= <-]; auto.
Qed.

Lemma append_agents_inv t count agents cur res cur' :
  AgentFactory.append_agents t count agents cur = Ok (res, cur') ->
  exists new, res = agents ++ new /\
    Forall (fun a => exists id, AgentFactory.create (agent_type_of a) id ∅ = Ok a) new.
Proof.
  revert agents cur. induction count as [|count IH]; intros agents cur; simpl.
  - intros [= <- <-]. exists []. by rewrite app_nil_r.
  - destruct (AgentFactory.create t cur ∅) as [a|e] eqn:Ha; [|discriminate].
    unfold mbind, result_bind; cbn beta iota.
    intros (new & -> & Hall)%IH. exists (a :: new). rewrite <- app_assoc.
    split; [done|]. constructor; [|done].
    exists cur. destruct (decide (t ∈ registry)) as [Ht|Ht].
    + destruct (create_default_ok t cur Ht) as (a' & Ha' & Hty & _).
      rewrite Ha in Ha'. injection Ha' as <-. by rewrite Hty.
    + apply registry_lookup_None in Ht. unfold AgentFactory.create in Ha.
      by rewrite Ht in Ha.
Qed.

Lemma mixed_loop_inv items agents cur res :
  AgentFactory.mixed_loop items agents cur = Ok res ->
  exists new, res = agents ++ new /\
    Forall (fun a => exists id, AgentFactory.create (agent_type_of a) id ∅ = Ok a) new.
Proof.
  revert agents cur. induction items as [|[t count] items IH]; intros agents cur; simpl.
  - intros [= <-]. exists []. by rewrite app_nil_r.
  - destruct (AgentFactory.append_agents t (Z.to_nat count) agents cur)
      as [[agents1 cur1]|e] eqn:H1; [|discriminate].
    unfold mbind, result_bind; cbn beta iota.
    apply append_agents_inv in H1 as (new1 & -> & Hall1).
    intros (new2 & -> & Hall2)%IH. exists (new1 ++ new2).
    rewrite <- app_assoc. split; [done|]. by apply Forall_app.
Qed.

Lemma create_from_Random (p : Qc) (count : nat) (i : Z) :
  AgentFactory.create_from "Random" i count {["coop_probability" := p]}
  = Ok ((fun i => RandomAgent (BaseAgent.init i 0) p) <$> seqZ i (Z.of_nat count)).
Proof.
  revert i. induction count as [|count IH]; intros i; [done|].
  cbn [AgentFactory.create_from]. rewrite IH.
  rewrite (seqZ_cons i) by lia.
  replace (Z.pred (Z.of_nat (S count))) with (Z.of_nat count) by lia.
  replace (Z.succ i) with (i + 1) by lia.
  vm_compute. reflexivity.
Qed.

Lemma create_from_inv (t : string) (count : nat) (i : Z) (kwargs : gmap string Qc)
  (agents : list Agent) :
  AgentFactory.create_from t i count kwargs = Ok agents ->
  Forall2 (fun j a => AgentFactory.create t j kwargs = Ok a)
          (seqZ i (Z.of_nat count)) agents.
Proof.
  revert i agents. induction count as [|count IH]; intros i agents.
  - intros [= <-]. constructor.
  - cbn [AgentFactory.create_from].
    destruct (AgentFactory.create t i kwargs) as [a|e] eqn:Ha; [|discriminate].
    unfold mbind, result_bind; cbn beta iota.
    destruct (AgentFactory.create_from t (i + 1) count kwargs) as [rest|e] eqn:Hrest;
      [|discriminate].
    intros [= <-]. rewrite (seqZ_cons i) by lia.
    replace (Z.pred (Z.of_nat (S count))) with (Z.of_nat count) by lia.
    replace (Z.succ i) with (i + 1) by lia.
    constructor; [done | by apply IH].
Qed.

(** C10. [create_mixed_population] builds every agent from its strategy
    identifier and id alone, so each one has the default parameters of its
    class (Random's probability 1/2; the Q-learner's rates 0.1, 0.95, 0.1),
    while [create] and [create_population] pass their keyword arguments on
    to the constructor. *)
Theorem C10_mixed_population_uses_defaults :
  (forall (composition : list (string * Z)) (start_id : Z) (agents : list Agent),
     AgentFactory.create_mixed_population composition start_id = Ok agents ->
     Forall (fun a => (exists id, AgentFactory.create (agent_type_of a) id ∅ = Ok a)
                      /\ has_default_parameters a) agents) /\
  (forall (id : Z) (p : Qc),
     AgentFactory.create "Random" id {["coop_probability" := p]}
     = Ok (RandomAgent (BaseAgent.init id 0) p)) /\
  (forall (id : Z) (a g e : Qc),
     AgentFactory.create "Q-Learn" id
       (<["learning_rate" := a]> (<["discount_factor" := g]> {["epsilon" := e]}))
     = Ok (QLearningAgent (BaseAgent.init id 50) a g e ∅)) /\
  (forall (n : Z) (p : Qc),
     AgentFactory.create_population "Random" n {["coop_probability" := p]}
     = Ok ((fun i => RandomAgent (BaseAgent.init i 0) p) <$> seqZ 0 n)) /\
  (forall (t : string) (c : agent_class) (id : Z) (kwargs : gmap string Qc),
     AgentFactory.AGENT_TYPES !! t = Some c ->
     AgentFactory.create t id kwargs = construct c id kwargs) /\
  (forall (t : string) (n : Z) (kwargs : gmap string Qc) (agents : list Agent),
     AgentFactory.create_population t n kwargs = Ok agents ->
     Forall2 (fun i a => AgentFactory.create t i kwargs = Ok a) (seqZ 0 n) agents).
Proof.
  split; [|split; [|split; [|split; [|split]]]]; cycle 4.
  { intros t c id kwargs Hc. unfold AgentFactory.create. by rewrite Hc. }
  { intros t n kwargs agents H. apply create_from_inv in H.
    destruct (Z.le_gt_cases 0 n).
    - by rewrite Z2Nat.id in H.
    - rewrite Z2Nat.nonpos in H by lia. by rewrite seqZ_nil by lia. }
  - intros composition start_id agents H.
    apply mixed_loop_inv in H as (new & -> & Hall). simpl.
    eapply Forall_impl; [exact Hall|].
    intros a [id Ha]. split; [by exists id|]. by eapply create_empty_defaults.
  - intros id p. vm_compute. reflexivity.
  - intros id a g e. vm_compute. reflexivity.
  - intros n p. unfold AgentFactory.create_population.
    rewrite create_from_Random. destruct (Z.le_gt_cases 0 n).
    + by rewrite Z2Nat.id.
    + rewrite Z2Nat.nonpos by lia. simpl. by rewrite seqZ_nil by lia.
Qed.

Lemma C10_mixed_population_uses_defaults_witness :
  Forall (fun a => (exists id, AgentFactory.create (agent_type_of a) id ∅ = Ok a)
                   /\ has_default_parameters a)
    [RandomAgent (BaseAgent.init 7 0) (dec 1 2);
     QLearningAgent (BaseAgent.init 8 50) (dec 1 10) (dec 95 100) (dec 1 10) ∅].
Proof.
  apply (proj1 C10_mixed_population_uses_defaults [("Random", 1); ("Q-Learn", 1)] 7).
  vm_compute. reflexivity.
Defined.

(** ** C5: Grim Trigger *)

Lemma eqb_PD (game_type : string) (A : Type) (x y : A) :
  (if String.eqb game_type "PD" then x else y) = if decide (game_type = "PD") then x else y.
Proof.
  destruct (String.eqb_spec game_type "PD"), (decide (game_type = "PD")); congruence.
Qed.

Lemma grim_step_triggered (st : Agent * rng) (e : event) :
  is_triggered st.1 -> e <> Reset -> is_triggered (step st e).1.
Proof.
  destruct st as [a g]. cbn [fst]. intros [b ->] He.
  destruct e as [gt|my opp pay|]; [| |done].
  - simpl. destruct (String.eqb gt "PD"); by exists b.
  - simpl. eexists. f_equal. by destruct (decide _).
Qed.

Lemma grim_run_triggered (evs : list event) (st : Agent * rng) :
  is_triggered st.1 -> Reset ∉ evs -> is_triggered (run evs st).1.
Proof.
  revert st. induction evs as [|e evs IH]; intros st Htrig Hnr; [done|].
  simpl. apply IH.
  - apply grim_step_triggered; [done|]. intros ->. apply Hnr. by left.
  - intros H. apply Hnr. by right.
Qed.

(** C5. Once an [update] reports the opponent playing ['D'] or ['B'],
    every later [choose_action] returns the defect symbol of the game type,
    whatever calls other than [reset] come in between; no call other than
    [reset] leaves the triggered state, and [reset] returns the agent to
    cooperation. *)
Theorem C5_grim_trigger_absorbing (b : BaseAgent.t) (triggered : bool) :
  (forall (my_action opponent_action : string) (payoff : Qc)
          (evs : list event) (game_type : string) (g : rng),
     opponent_action ∈ ["D"; "B"] ->
     Reset ∉ evs ->
     let st := run evs (update (GrimTrigger b triggered) my_action opponent_action payoff, g) in
     action_of (choose_action st.1 game_type st.2) = defect_symbol game_type) /\
  (forall (e : event) (g : rng),
     e <> Reset -> is_triggered (step (GrimTrigger b true, g) e).1) /\
  (forall (game_type : string) (g : rng),
     reset (GrimTrigger b triggered) = GrimTrigger (BaseAgent.reset b) false /\
     action_of (choose_action (reset (GrimTrigger b triggered)) game_type g)
       = cooperate_symbol game_type).
Proof.
  split; [|split].
  - intros my opp pay evs gt g Hopp Hnr st.
    assert (is_triggered st.1) as [b' Hst].
    { apply grim_run_triggered; [|done]. simpl. eexists. f_equal.
      by rewrite decide_True. }
    rewrite Hst. unfold action_of, defect_symbol. simpl. by rewrite eqb_PD.
  - intros e g He. apply grim_step_triggered; [by exists b | done].
  - intros gt g. split; [done|].
    unfold action_of, cooperate_symbol. simpl. by rewrite eqb_PD.
Qed.

Lemma C5_grim_trigger_absorbing_witness :
  let st :=
    run [Update "D" "C" (num 5); Choose "PD"; Update "D" "C" (num 5)]
        (update (GrimTrigger (BaseAgent.init 5 100) false) "C" "D" (num 0),
         {| uniform := fun _ => 0%Qc; index := fun _ => 0%nat; pos := 0 |}) in
  action_of (choose_action st.1 "COORD" st.2) = defect_symbol "COORD".
Proof.
  apply (proj1 (C5_grim_trigger_absorbing (BaseAgent.init 5 100) false)).
  - set_solver.
  - intros H. repeat (apply elem_of_cons in H as [H|H]; [discriminate|]).
    by apply elem_of_nil in H.
Defined.

(** ** C6: Win-Stay-Lose-Shift *)

Lemma last_tail {A} (l : list A) : (2 <= length l)%nat -> last (tail l) = last l.
Proof. destruct l as [|x [|y l]]; simpl; [lia|lia|done]. Qed.

Lemma last_deque_append {A} (maxlen : nat) (d : list A) (x : A) :
  (0 < maxlen)%nat -> last (deque_append maxlen d x) = Some x.
Proof.
  intros Hpos. unfold deque_append.
  destruct (Nat.ltb_spec maxlen (length (d ++ [x]))).
  - rewrite last_tail by lia. apply last_snoc.
  - apply last_snoc.
Qed.

Lemma pavlov_step (threshold : Qc) (st : Agent * rng) (e : event) :
  is_pavlov threshold st.1 -> is_pavlov threshold (step st e).1.
Proof.
  destruct st as [a g]. cbn [fst]. intros (b & la & -> & Hlen).
  destruct e as [gt|my opp pay|]; simpl.
  - destruct (last (BaseAgent.memory b)) as [rec|]; [|by repeat eexists].
    destruct (Qc_geb (payoff rec) threshold); by repeat eexists.
  - by repeat eexists.
  - by repeat eexists.
Qed.

Lemma pavlov_run (threshold : Qc) (evs : list event) (st : Agent * rng) :
  is_pavlov threshold st.1 -> is_pavlov threshold (run evs st).1.
Proof.
  revert st. induction evs as [|e evs IH]; intros st H; [done|].
  simpl. by apply IH, pavlov_step.
Qed.

(** C6. A newly built agent (threshold 2 by default) first plays the
    cooperative symbol. After any session, an [update] followed at once by
    [choose_action] returns the action just recorded when the recorded
    payoff is at least the threshold, and the other symbol of the alphabet
    otherwise. *)
Theorem C6_pavlov_win_stay_lose_shift (id : Z) (threshold : Qc) :
  AgentFactory.create "Pavlov" id ∅ = Ok (Pavlov (BaseAgent.init id 1) (num 2) None) /\
  (forall (game_type : string) (g : rng),
     action_of (choose_action (Pavlov (BaseAgent.init id 1) threshold None) game_type g)
       = cooperate_symbol game_type) /\
  (forall (evs : list event) (g : rng) (my_action opponent_action : string)
          (payoff : Qc) (game_type : string),
     my_action ∈ actions_of game_type ->
     let st := run evs (Pavlov (BaseAgent.init id 1) threshold None, g) in
     let a := action_of (choose_action (update st.1 my_action opponent_action payoff)
                           game_type st.2) in
     ((threshold <= payoff)%Qc -> a = my_action) /\
     ((payoff < threshold)%Qc -> Some a = other_symbol (actions_of game_type) my_action)).
Proof.
  split; [vm_compute; reflexivity|]. split.
  - intros gt g. unfold action_of, cooperate_symbol. simpl. by rewrite eqb_PD.
  - intros evs g my opp pay gt Hmy st a.
    assert (is_pavlov threshold st.1) as (b & la & Hst & Hlen).
    { apply pavlov_run. by repeat eexists. }
    subst a. rewrite Hst. unfold action_of. simpl.
    rewrite last_deque_append by lia. simpl.
    destruct (Qc_geb pay threshold) eqn:Hcmp; simpl.
    + split; [done|]. intros Hlt. apply Qc_geb_le in Hcmp.
      by apply Qclt_not_le in Hlt.
    + split.
      * intros Hle. apply Qc_geb_le in Hle. congruence.
      * intros _. rewrite eqb_PD. unfold actions_of in *.
        destruct (decide (gt = "PD")).
        -- apply elem_of_cons in Hmy as [->|Hmy]; [done|].
           apply elem_of_cons in Hmy as [->|Hmy]; [done|]. by apply elem_of_nil in Hmy.
        -- apply elem_of_cons in Hmy as [->|Hmy]; [done|].
           apply elem_of_cons in Hmy as [->|Hmy]; [done|]. by apply elem_of_nil in Hmy.
Qed.

Lemma C6_pavlov_win_stay_lose_shift_witness :
  let st := run [Choose "PD"; Update "C" "C" (num 3); Choose "PD"]
              (Pavlov (BaseAgent.init 4 1) (num 2) None,
               {| uniform := fun _ => 0%Qc; index := fun _ => 0%nat; pos := 0 |}) in
  let a := action_of (choose_action (update st.1 "C" "D" (num 0)) "PD" st.2) in
  ((num 2 <= num 0)%Qc -> a = "C") /\
  ((num 0 < num 2)%Qc -> Some a = other_symbol (actions_of "PD") "C").
Proof.
  apply (proj2 (proj2 (C6_pavlov_win_stay_lose_shift 4 (num 2)))).
  unfold actions_of. simpl. set_solver.
Defined.

(** ** C4: what [reset] clears *)

(** C4, as stated, fails: [FictitiousPlay.reset] empties the
    opponent-action counts. After one observed defection the counts hold
    [{'D': 1}] before the reset and nothing after. *)
Lemma C4_reset_keeps_counts_counterexample :
  let a := update (FictitiousPlay (BaseAgent.init 7 100) ∅) "C" "D" (num 0) in
  opponent_action_counts_of a = {["D" := 1]} /\
  opponent_action_counts_of (reset a) = ∅ /\
  opponent_action_counts_of (reset a) <> opponent_action_counts_of a.
Proof.
  split; [|split].
  - vm_compute. reflexivity.
  - reflexivity.
  - simpl. intros H. apply (f_equal (fun m => m !! "D")) in H.
    vm_compute in H. discriminate.
Qed.

(** C4, amended. For every agent, in whatever state, [reset] empties the
    memory and sets the payoff total and the round count to zero, keeping
    id and memory bound. The Q-learner keeps its value table and rates,
    Pavlov its threshold and last action, the random agent its probability;
    the frequency-based responder's counts are emptied and the Grim Trigger
    flag is cleared. *)
Theorem C4_reset_clears_base_state (a : Agent) :
  BaseAgent.memory (base (reset a)) = [] /\
  BaseAgent.total_payoff (base (reset a)) = 0%Qc /\
  BaseAgent.round_count (base (reset a)) = 0 /\
  BaseAgent.id (base (reset a)) = BaseAgent.id (base a) /\
  BaseAgent.memory_length (base (reset a)) = BaseAgent.memory_length (base a) /\
  agent_type_of (reset a) = agent_type_of a /\
  q_table_of (reset a) = q_table_of a /\
  opponent_action_counts_of (reset a) = ∅ /\
  match a with
  | RandomAgent b p => reset a = RandomAgent (BaseAgent.reset b) p
  | Pavlov b threshold last_action =>
      reset a = Pavlov (BaseAgent.reset b) threshold last_action
  | GrimTrigger b _ => reset a = GrimTrigger (BaseAgent.reset b) false
  | QLearningAgent b alpha gamma epsilon q_table =>
      reset a = QLearningAgent (BaseAgent.reset b) alpha gamma epsilon q_table
  | FictitiousPlay b _ => reset a = FictitiousPlay (BaseAgent.reset b) ∅
  | _ => True
  end.
Proof. destruct a; by repeat split. Qed.

(** ** C3: the frequency-based best responder *)









Section FictitiousPlay_facts.

Variables (b : BaseAgent.t) (counts : gmap string Z) (g : rng).





End FictitiousPlay_facts.

Lemma pd_init_inv (R S T P : Qc) (pd : PrisonersDilemma.t) :
  PrisonersDilemma.init R S T P = Ok pd ->
  ((R < T)%Qc /\ (P < R)%Qc /\ (S < P)%Qc) /\
  PrisonersDilemma.PAYOFF_MATRIX pd =
    <[("C", "C") := (R, R)]>
    (<[("C", "D") := (S, T)]>
    (<[("D", "C") := (T, S)]>
    (<[("D", "D") := (P, P)]> ∅))).
Proof.
  intros Hinit.
  destruct (decide ((R < T)%Qc /\ (P < R)%Qc /\ (S < P)%Qc)) as [Hord|Hord].
  - split; [done|]. destruct Hord as (H1 & H2 & H3).
    rewrite (pd_init_ok R S T P H1 H2 H3) in Hinit. by injection Hinit as <-.
  - rewrite (pd_init_fails R S T P Hord) in Hinit. discriminate.
Qed.






(** ** C2: the Q-learning update *)

Section q_table_facts.

Variable t : gmap string (gmap string Qc).

Lemma row_lookup (s a : string) : row t s !! a = stored t s a.
Proof. unfold row, stored. by destruct (t !! s). Qed.

Lemma q_row_eq (s : string) : q_row t s = (row t s, <[s := row t s]> t).
Proof. done. Qed.

Lemma q_read_eq (s a : string) :
  q_read t s a =
    (stored_or_zero t s a, <[s := <[a := stored_or_zero t s a]> (row t s)]> t).
Proof.
  unfold q_read, stored_or_zero. rewrite q_row_eq, <- row_lookup.
  destruct (row t s !! a) as [v|] eqn:Hv; simpl; f_equal.
  - by rewrite (insert_id (row t s) a v).
  - by rewrite insert_insert_eq.
Qed.

Lemma q_write_eq (s a : string) (v : Qc) :
  q_write t s a v = <[s := <[a := v]> (row t s)]> t.
Proof. unfold q_write. rewrite q_row_eq. by rewrite insert_insert_eq. Qed.

End q_table_facts.

Lemma row_insert (t : gmap string (gmap string Qc)) (s s' : string) (r : gmap string Qc) :
  row (<[s := r]> t) s' = if decide (s' = s) then r else row t s'.
Proof.
  unfold row. destruct (decide (s' = s)) as [->|Hne].
  - by rewrite lookup_insert_eq.
  - by rewrite lookup_insert_ne.
Qed.

(** The table an [update] leaves, in closed form. *)
Lemma q_update_table (b : BaseAgent.t) (alpha gamma epsilon : Qc)
  (t : gmap string (gmap string Qc)) (a s' : string) (r : Qc) :
  let s := _get_state b in
  let old := stored_or_zero t s a in
  let row_s := <[a := old]> (row t s) in
  let row_next := if decide (s' = s) then row_s else row t s' in
  let new_q := (old + alpha * (r + gamma * max_stored row_next - old))%Qc in
  q_table_of (update (QLearningAgent b alpha gamma epsilon t) a s' r) =
    <[s := <[a := new_q]> row_s]> (<[s' := row_next]> (<[s := row_s]> t)).
Proof.
  intros s old row_s row_next new_q.
  unfold update. fold s. rewrite q_read_eq. fold old row_s.
  rewrite q_row_eq, row_insert. fold row_next.
  unfold q_table_of. rewrite q_write_eq. fold (max_stored row_next). fold new_q.
  f_equal. f_equal. rewrite row_insert.
  destruct (decide (s = s')) as [Heq|Hne].
  - subst row_next. by rewrite decide_True.
  - by rewrite row_insert, decide_True.
Qed.

Lemma get_state_spec (b : BaseAgent.t) :
  (BaseAgent.memory b = [] -> _get_state b = "init") /\
  (forall rec, last (BaseAgent.memory b) = Some rec ->
     opponent_action rec <> "" -> _get_state b = opponent_action rec).
Proof.
  unfold _get_state, BaseAgent.get_last_opponent_action. split.
  - by intros ->.
  - intros rec -> Hne. simpl. by destruct (String.eqb_spec (opponent_action rec) "").
Qed.

(** C2, as stated, fails when [s' = s] and the pair [(s, a)] has no value
    yet: reading [Q(s, a)] creates the entry with value zero before the
    maximum under [s'] is taken. A learner with [alpha = 0.1],
    [gamma = 0.95] that twice played ['D'] against ['C'] for a payoff of
    -10 holds [{'C': {'D': -1}}] under state ['C']; the call
    [update('C', 'C', 0)] then stores 0 at [('C', 'C')], where the rule with
    the stored maximum -1 gives -19/200. *)
Lemma C2_update_rule_counterexample :
  let q0 := QLearningAgent (BaseAgent.init 6 50) (dec 1 10) (dec 95 100) (dec 1 10) ∅ in
  let q2 := update (update q0 "D" "C" (num (-10))) "D" "C" (num (-10)) in
  _get_state (base q2) = "C" /\
  stored (q_table_of q2) "C" "D" = Some (num (-1)) /\
  stored (q_table_of q2) "C" "C" = None /\
  stored (q_table_of (update q2 "C" "C" (num 0))) "C" "C" = Some 0%Qc /\
  update_rule (dec 1 10) (dec 95 100) (q_table_of q2) "C" "C" "C" (num 0) = dec (-19) 200 /\
  stored (q_table_of (update q2 "C" "C" (num 0))) "C" "C"
    <> Some (update_rule (dec 1 10) (dec 95 100) (q_table_of q2) "C" "C" "C" (num 0)).
Proof.
  intros q0 q2. split; [vm_compute; reflexivity|].
  split; [|split; [vm_compute; reflexivity|split; [|split]]].
  - qc_compute.
  - qc_compute.
  - qc_compute.
  - intros H.
    assert (this <$> stored (q_table_of (update q2 "C" "C" (num 0))) "C" "C"
            = this <$> Some (update_rule (dec 1 10) (dec 95 100)
                               (q_table_of q2) "C" "C" "C" (num 0))) as H'
      by (by rewrite H).
    vm_compute in H'. discriminate.
Qed.

(** C2, amended. After [update(a, s', r)], with [s] the state before the
    call ('init' without history, else the last recorded opponent action),
    the value stored at [(s, a)] is
    [old + alpha * (r + gamma * maxNext - old)], where [old] is the former
    value (zero if there was none) and [maxNext] is the maximum of the
    values stored under [s'] (zero if there are none), the entry [(s, a)]
    itself counting as present with value [old] when [s' = s]. Every other
    entry is unchanged. Whenever [s'] differs from [s] or [(s, a)] already
    had a value, [maxNext] is the maximum stored under [s'] before the
    call. *)
Theorem C2_q_learning_update (b : BaseAgent.t) (alpha gamma epsilon : Qc)
  (q_table : gmap string (gmap string Qc)) (a s' : string) (r : Qc) :
  let s := _get_state b in
  let old := stored_or_zero q_table s a in
  let row_next :=
    if decide (s' = s) then <[a := old]> (row q_table s) else row q_table s' in
  let max_next := max_stored row_next in
  let q_table' := q_table_of (update (QLearningAgent b alpha gamma epsilon q_table) a s' r) in
  ((BaseAgent.memory b = [] -> s = "init") /\
   (forall rec, last (BaseAgent.memory b) = Some rec ->
      opponent_action rec <> "" -> s = opponent_action rec)) /\
  stored q_table' s a = Some (old + alpha * (r + gamma * max_next - old))%Qc /\
  (forall s2 a2 : string, (s2, a2) <> (s, a) -> stored q_table' s2 a2 = stored q_table s2 a2) /\
  (s' <> s \/ is_Some (stored q_table s a) ->
   stored q_table' s a = Some (update_rule alpha gamma q_table s a s' r)).
Proof.
  intros s old row_next max_next q_table'.
  assert (stored q_table' s a = Some (old + alpha * (r + gamma * max_next - old))%Qc)
    as Hnew.
  { subst q_table'. rewrite q_update_table. unfold stored.
    rewrite lookup_insert_eq. simpl. by rewrite lookup_insert_eq. }
  split; [apply get_state_spec|]. split; [exact Hnew|]. split.
  - intros s2 a2 Hne. subst q_table'. rewrite q_update_table. fold s old.
    unfold stored at 1. destruct (decide (s2 = s)) as [->|Hs2].
    + rewrite lookup_insert_eq. simpl.
      rewrite !lookup_insert_ne by congruence. apply row_lookup.
    + rewrite lookup_insert_ne by done.
      destruct (decide (s2 = s')) as [->|Hs2'].
      * rewrite lookup_insert_eq. simpl. rewrite decide_False by done.
        apply row_lookup.
      * by rewrite !lookup_insert_ne.
  - intros Hcase. rewrite Hnew. unfold update_rule. fold s old.
    do 6 f_equal. subst max_next row_next.
    destruct (decide (s' = s)) as [->|Hne]; [|done].
    destruct Hcase as [Hcase|[v Hv]]; [done|].
    f_equal. apply insert_id. rewrite row_lookup. subst old.
    unfold stored_or_zero. by rewrite Hv.
Qed.

Lemma C2_q_learning_update_witness :
  let b := BaseAgent.init 6 50 in
  stored (q_table_of (update (QLearningAgent b (dec 1 10) (dec 95 100) (dec 1 10) ∅)
                        "C" "D" (num 3))) (_get_state b) "C"
  = Some (update_rule (dec 1 10) (dec 95 100) ∅ (_get_state b) "C" "D" (num 3)).
Proof.
  intros b.
  apply (proj2 (proj2 (proj2 (C2_q_learning_update b (dec 1 10) (dec 95 100) (dec 1 10)
                                ∅ "C" "D" (num 3))))).
  left. discriminate.
Defined.

(** ** C1: the actions an agent returns *)

(** C1, as stated, fails in public-goods mode: the agents return letter
    symbols there, while the game declares the contributions
    [[0, endowment]]. *)
Lemma C1_alphabet_counterexample :
  let game := GamePG (PublicGoodsGame.init 4 (num 2) (num 10)) in
  AgentFactory.create "AllC" 0 ∅ = Ok (AlwaysCooperate (BaseAgent.init 0 0)) /\
  action_of (choose_action (AlwaysCooperate (BaseAgent.init 0 0)) (game_type game) rng0) = "C" /\
  get_actions game = [PyNum (num 0); PyNum (num 10)] /\
  PyStr (action_of (choose_action (AlwaysCooperate (BaseAgent.init 0 0))
                      (game_type game) rng0)) ∉ get_actions game.
Proof.
  split; [vm_compute; reflexivity|]. split; [reflexivity|]. split; [reflexivity|].
  simpl. intros H. apply elem_of_cons in H as [H|H]; [discriminate|].
  apply elem_of_cons in H as [H|H]; [discriminate|]. by apply elem_of_nil in H.
Qed.

Lemma py_max_elem (xs : list Qc) (m : Qc) : py_max xs = Some m -> m ∈ xs.
Proof.
  destruct xs as [|x rest]; [discriminate|]. simpl. intros [= <-].
  revert x. induction rest as [|y rest IH]; intros x; simpl; [by left|].
  destruct (Qc_gtb y x).
  - right. apply IH.
  - specialize (IH x). apply elem_of_cons in IH as [IH|IH].
    + rewrite IH. by left.
    + by do 2 right.
Qed.

Lemma random_choice_elem (g : rng) (seq : list string) :
  seq <> [] -> (random_choice g seq).1 ∈ seq.
Proof.
  intros Hne. unfold random_choice. cbn [fst].
  apply list_elem_of_In, nth_In. apply Nat.mod_upper_bound.
  by destruct seq.
Qed.

(** The [q_values] dictionary has exactly the candidate actions as keys. *)
Lemma q_values_keys (state : string) (actions : list string)
  (acc : list (string * Qc)) (t : gmap string (gmap string Qc)) :
  (fold_left (fun '(acc, t) a => let '(v, t) := q_read t state a in (acc ++ [(a, v)], t))
             actions (acc, t)).1.*1 = acc.*1 ++ actions.
Proof.
  revert acc t. induction actions as [|a actions IH]; intros acc t; simpl.
  - by rewrite app_nil_r.
  - destruct (q_read t state a) as [v t']. rewrite IH.
    by rewrite fmap_app, <- app_assoc.
Qed.

(** At least one action attains the maximum, so [random.choice] is never
    given an empty list; and the best actions are candidate actions. *)
Lemma best_actions_nonempty (q_values : list (string * Qc)) :
  q_values <> [] ->
  let max_q := default 0%Qc (py_max (q_values.*2)) in
  let best_actions := (filter (fun '(a, q) => Qc_eqb q max_q = true) q_values).*1 in
  best_actions <> [] /\ best_actions ⊆ q_values.*1.
Proof.
  intros Hne max_q best_actions. split.
  - destruct (py_max (q_values.*2)) as [m|] eqn:Hmax.
    + apply py_max_elem in Hmax.
      apply list_elem_of_fmap in Hmax as ([a q] & -> & Hin).
      assert ((a, q) ∈ filter (fun '(a, q) => Qc_eqb q max_q = true) q_values) as Hf.
      { apply list_elem_of_filter. split; [|done]. subst max_q. simpl.
        by apply Qc_eqb_eq. }
      subst best_actions. intros Hnil. apply fmap_nil_inv in Hnil.
      rewrite Hnil in Hf. by apply elem_of_nil in Hf.
    + by destruct q_values.
  - subst best_actions. intros x Hx.
    apply list_elem_of_fmap in Hx as (aq & -> & Hin).
    apply list_elem_of_filter in Hin as [_ Hin]. by apply list_elem_of_fmap_2.
Qed.

Section alphabet_invariant.

(** A two-player game type and its alphabet. *)
Variable game_type : string.

Let alphabet : list string := actions_of game_type.

Lemma cooperate_in_alphabet : cooperate_symbol game_type ∈ alphabet.
Proof.
  unfold cooperate_symbol, alphabet, actions_of.
  destruct (decide (game_type = "PD")); by left.
Qed.

Lemma defect_in_alphabet : defect_symbol game_type ∈ alphabet.
Proof.
  unfold defect_symbol, alphabet, actions_of.
  destruct (decide (game_type = "PD")); right; by left.
Qed.

Lemma shift_in_alphabet (last_action : option string) :
  (if String.eqb game_type "PD"
   then (if decide (last_action = Some "C") then "D" else "C")
   else (if decide (last_action = Some "A") then "B" else "A")) ∈ alphabet.
Proof.
  rewrite eqb_PD. unfold alphabet, actions_of.
  destruct (decide (game_type = "PD")); destruct (decide _); set_solver.
Qed.

Lemma choose_in_alphabet (a : Agent) (g : rng) :
  game_type = "PD" \/ game_type = "COORD" ->
  alphabet_inv game_type a -> action_of (choose_action a game_type g) ∈ alphabet.
Proof.
  intros two_player Hinv. unfold action_of.
  destruct a as [b|b|b p|b|b th la|b trig|b al ga ep t|b counts].
  - clear Hinv. unfold alphabet, actions_of.
    destruct two_player as [H|H]; rewrite H; simpl; set_solver.
  - clear Hinv. unfold alphabet, actions_of.
    destruct two_player as [H|H]; rewrite H; simpl; set_solver.
  - simpl. destruct (Qc_ltb _ p); simpl; rewrite eqb_PD;
      [apply cooperate_in_alphabet | apply defect_in_alphabet].
  - simpl. unfold BaseAgent.get_last_opponent_action.
    destruct (last (BaseAgent.memory b)) as [rec|] eqn:Hlast; simpl.
    + simpl in Hinv. rewrite Forall_forall in Hinv. apply Hinv.
      rewrite last_lookup in Hlast. by eapply list_elem_of_lookup_2.
    + rewrite eqb_PD. apply cooperate_in_alphabet.
  - simpl. destruct Hinv as [Hla Hmem].
    destruct (last (BaseAgent.memory b)) as [rec|] eqn:Hlast; simpl.
    + destruct (Qc_geb (payoff rec) th); simpl; [|apply shift_in_alphabet].
      destruct Hmem as [x ->]; [by intros Hnil; rewrite Hnil in Hlast|].
      by apply Hla.
    + rewrite eqb_PD. apply cooperate_in_alphabet.
  - simpl. destruct trig; simpl; rewrite eqb_PD;
      [apply defect_in_alphabet | apply cooperate_in_alphabet].
  - cbn [choose_action]. rewrite (eqb_PD game_type). fold (actions_of game_type).
    fold alphabet. assert (alphabet <> []) as Hne.
    { unfold alphabet, actions_of. by destruct (decide _). }
    destruct (random_random g) as [u g1]. destruct (Qc_ltb u ep).
    + pose proof (random_choice_elem g1 alphabet Hne) as Hin.
      by destruct (random_choice g1 alphabet).
    + pose proof (q_values_keys (_get_state b) alphabet [] t) as Hkeys.
      destruct (fold_left _ alphabet ([], t)) as [q_values t'].
      simpl in Hkeys.
      destruct (best_actions_nonempty q_values) as [Hbest Hsub].
      { intros Hnil. rewrite Hnil in Hkeys. by symmetry in Hkeys. }
      pose proof (random_choice_elem g1 _ Hbest) as Hin.
      destruct (random_choice g1 _) as [x g2]. simpl in *.
      rewrite <- Hkeys. by apply Hsub.
  - simpl. destruct (_ <? 2); simpl; [rewrite eqb_PD; apply cooperate_in_alphabet|].
    rewrite eqb_PD. unfold alphabet, actions_of.
    destruct (decide (game_type = "PD")).
    + destruct (_get_opponent_probability counts "C") as [p c'].
      simpl. destruct (Qc_geb _ _); [by left | right; by left].
    + destruct (_get_opponent_probability counts "A") as [p c'].
      simpl. destruct (Qc_geb _ _); [by left | right; by left].
Qed.

Lemma Forall_deque_append {A} (P : A -> Prop) (maxlen : nat) (d : list A) (x : A) :
  Forall P d -> P x -> Forall P (deque_append maxlen d x).
Proof.
  intros Hd Hx. unfold deque_append.
  assert (Forall P (d ++ [x])) as Hall by (apply Forall_app; auto).
  destruct (_ <? _)%nat; [|done].
  destruct (d ++ [x]); [done|]. simpl. by apply Forall_cons in Hall as [_ ?].
Qed.

Lemma alphabet_inv_step (st : Agent * rng) (e : event) :
  event_ok game_type e -> alphabet_inv game_type st.1 -> alphabet_inv game_type (step st e).1.
Proof.
  destruct st as [a g]. cbn [fst]. intros He Hinv.
  destruct e as [gt|my opp pay|].
  - simpl in He. rewrite He. clear He gt. unfold step. cbn [fst snd].
    destruct a as [b|b|b p|b|b th la|b trig|b al ga ep t|b counts].
    + simpl. by repeat destruct (String.eqb _ _).
    + simpl. by repeat destruct (String.eqb _ _).
    + simpl. by destruct (Qc_ltb _ p).
    + simpl. by destruct (BaseAgent.get_last_opponent_action b).
    + simpl. destruct Hinv as [Hla Hmem].
      destruct (last (BaseAgent.memory b)) as [rec|]; simpl.
      * destruct (Qc_geb (payoff rec) th); simpl; [done|].
        split; [|by eauto]. intros x [= <-]. apply shift_in_alphabet.
      * split; [|by eauto]. intros x [= <-]. rewrite eqb_PD.
        apply cooperate_in_alphabet.
    + simpl. by destruct trig.
    + destruct (choose_action (QLearningAgent b al ga ep t) game_type g)
        as [[x a'] g'] eqn:Hc.
      cbn [choose_action] in Hc.
      destruct (random_random g) as [u g1]. destruct (Qc_ltb u ep).
      * destruct (random_choice g1 _) as [y g2]. by injection Hc as _ <- _.
      * destruct (fold_left _ _ _) as [q_values t'].
        destruct (random_choice g1 _) as [y g2]. by injection Hc as _ <- _.
    + destruct (choose_action (FictitiousPlay b counts) game_type g)
        as [[x a'] g'] eqn:Hc.
      cbn [choose_action] in Hc.
      destruct (_ <? 2); [by injection Hc as _ <- _|].
      destruct (String.eqb game_type "PD").
      * destruct (_get_opponent_probability counts "C") as [p c'].
        by injection Hc as _ <- _.
      * destruct (_get_opponent_probability counts "A") as [p c'].
        by injection Hc as _ <- _.
  - destruct He as [Hmy Hopp]. unfold step. cbn [fst snd].
    destruct a as [b|b|b p|b|b th la|b trig|b al ga ep t|b counts];
      try (simpl; done).
    + simpl. apply Forall_deque_append; done.
    + simpl. split; [by intros x [= <-] | by eauto].
    + unfold update. by rewrite q_read_eq, q_row_eq.
  - unfold step. cbn [fst snd]. destruct a; simpl; try done.
    destruct Hinv as [Hla _]. by split.
Qed.

Lemma alphabet_inv_run (evs : list event) (st : Agent * rng) :
  Forall (event_ok game_type) evs ->
  alphabet_inv game_type st.1 -> alphabet_inv game_type (run evs st).1.
Proof.
  intros Hevs. revert st. induction Hevs as [|e evs He _ IH]; intros st Hinv; [done|].
  simpl. by apply IH, alphabet_inv_step.
Qed.

End alphabet_invariant.

(** For the two matrix games the declared alphabet is the pair of symbols
    the agents use for the game's token. *)
Lemma get_actions_two_player (game : Game) :
  game_type game <> "PG" ->
  get_actions game = PyStr <$> actions_of (game_type game) /\
  (game_type game = "PD" \/ game_type game = "COORD").
Proof. destruct game; simpl; intros H; [split; auto | split; auto | done]. Qed.

Lemma create_alphabet_inv (game_type t : string) (id : Z) (kwargs : gmap string Qc)
  (a : Agent) :
  AgentFactory.create t id kwargs = Ok a -> alphabet_inv game_type a.
Proof.
  unfold AgentFactory.create.
  destruct (AgentFactory.AGENT_TYPES !! t) as [c|]; [|discriminate].
  destruct c; simpl;
    match goal with |- context [bool_decide ?P] => destruct (bool_decide P) end;
    intros [= <-]; simpl; done.
Qed.

(** C1, amended. For the game types 'PD' and 'COORD', every strategy the
    factory produces, and every session of [choose_action], [update] and
    [reset] calls on that game type in which the actions reported to
    [update] belong to the game's alphabet, each value [choose_action]
    returns is a member of the alphabet the game declares. (In
    public-goods mode the agents return letter symbols, not
    contributions.) *)
Theorem C1_actions_in_declared_alphabet
  (game : Game) (t : string) (id : Z) (kwargs : gmap string Qc) (a0 : Agent)
  (evs : list event) (g : rng) :
  game_type game <> "PG" ->
  AgentFactory.create t id kwargs = Ok a0 ->
  Forall (event_ok (game_type game)) evs ->
  let st := run evs (a0, g) in
  PyStr (action_of (choose_action st.1 (game_type game) st.2)) ∈ get_actions game.
Proof.
  intros Htwo Hcreate Hevs st.
  destruct (get_actions_two_player game Htwo) as [-> Htok].
  apply list_elem_of_fmap_2, choose_in_alphabet; [done|].
  apply alphabet_inv_run; [done|]. simpl. by eapply create_alphabet_inv.
Qed.

Lemma C1_actions_in_declared_alphabet_witness :
  let game := GameCOORD CoordinationGame.default in
  let st := run [Choose "COORD"; Update "A" "B" (num 0); Choose "COORD"; Reset;
                 Update "B" "B" (num 2)]
              (TitForTat (BaseAgent.init 3 1), rng0) in
  PyStr (action_of (choose_action st.1 (game_type game) st.2)) ∈ get_actions game.
Proof.
  apply (C1_actions_in_declared_alphabet (GameCOORD CoordinationGame.default)
           "TFT" 3 ∅ (TitForTat (BaseAgent.init 3 1))).
  - discriminate.
  - vm_compute. reflexivity.
  - repeat constructor; simpl; unfold actions_of; simpl; set_solver.
Defined.

(** * Further properties of the games *)

Lemma matrix_lookup_domain (x1 x2 x3 x4 : Qc * Qc) (s1 s2 : string) (a1 a2 : string) :
  let m : gmap (string * string) (Qc * Qc) :=
    <[(s1, s1) := x1]> (<[(s1, s2) := x2]> (<[(s2, s1) := x3]> (<[(s2, s2) := x4]> ∅))) in
  is_Some (m !! (a1, a2)) <-> a1 ∈ [s1; s2] /\ a2 ∈ [s1; s2].
Proof.
  intros m. subst m. rewrite <- elem_of_dom, !dom_insert_L, dom_empty_L.
  rewrite !elem_of_union, !elem_of_singleton, elem_of_empty.
  rewrite !elem_of_cons, !elem_of_nil. split.
  - intros [H|[H|[H|[H|[]]]]]; injection H as -> ->; tauto.
  - intros [[->|[->|[]]] [->|[->|[]]]]; tauto.
Qed.

(** [PrisonersDilemma.play] is defined exactly on pairs of the symbols 'C'
    and 'D': any other action is a KeyError. On its domain it is
    symmetric: swapping the two actions swaps the two payoffs. *)
Theorem pd_play_domain_and_symmetry (R S T P : Qc) (g : PrisonersDilemma.t)
  (a1 a2 : string) :
  PrisonersDilemma.init R S T P = Ok g ->
  (PrisonersDilemma.play g a1 a2 = Raise KeyError
     <-> ~ (a1 ∈ ["C"; "D"] /\ a2 ∈ ["C"; "D"])) /\
  (forall x y, PrisonersDilemma.play g a1 a2 = Ok (x, y) ->
     PrisonersDilemma.play g a2 a1 = Ok (y, x)).
Proof.
  intros [_ Hm]%pd_init_inv. unfold PrisonersDilemma.play. rewrite Hm. split.
  - rewrite <- (matrix_lookup_domain (R, R) (S, T) (T, S) (P, P) "C" "D" a1 a2).
    cbn zeta. destruct (_ !! (a1, a2)) as [u|].
    + split; [discriminate|]. intros H. destruct H. by eexists.
    + split; [|done]. by intros _ [? [=]].
  - intros x y Hxy.
    destruct (_ !! (a1, a2)) as [u|] eqn:Hu; [|discriminate].
    injection Hxy as ->.
    assert (is_Some (Some (x, y))) as Hdom by (by eexists).
    rewrite <- Hu in Hdom.
    apply (matrix_lookup_domain (R, R) (S, T) (T, S) (P, P) "C" "D") in Hdom.
    destruct Hdom as [H1 H2].
    apply elem_of_cons in H1 as [->|H1]; [|apply elem_of_cons in H1 as [->|H1];
      [|by apply elem_of_nil in H1]];
    (apply elem_of_cons in H2 as [->|H2]; [|apply elem_of_cons in H2 as [->|H2];
      [|by apply elem_of_nil in H2]]);
    vm_compute in Hu; injection Hu as <- <-; reflexivity.
Qed.

Lemma pd_play_domain_and_symmetry_witness :
  PrisonersDilemma.play
    {| PrisonersDilemma.PAYOFF_MATRIX :=
         <[("C", "C") := (num 3, num 3)]>
         (<[("C", "D") := (num 0, num 5)]>
         (<[("D", "C") := (num 5, num 0)]>
         (<[("D", "D") := (num 1, num 1)]> ∅))) |} "C" "X" = Raise KeyError
  <-> ~ ("C" ∈ ["C"; "D"] /\ "X" ∈ ["C"; "D"]).
Proof.
  apply (proj1 (pd_play_domain_and_symmetry (num 3) (num 0) (num 5) (num 1) _ "C" "X"
                  ltac:(vm_compute; reflexivity))).
Defined.

Lemma pd_play_values (R S T P : Qc) (g : PrisonersDilemma.t) :
  PrisonersDilemma.init R S T P = Ok g ->
  PrisonersDilemma.play g "C" "C" = Ok (R, R) /\
  PrisonersDilemma.play g "C" "D" = Ok (S, T) /\
  PrisonersDilemma.play g "D" "C" = Ok (T, S) /\
  PrisonersDilemma.play g "D" "D" = Ok (P, P).
Proof.
  intros [_ Hm]%pd_init_inv. unfold PrisonersDilemma.play. rewrite Hm.
  by repeat split.
Qed.

Lemma pd_play_Ok_inv (R S T P : Qc) (g : PrisonersDilemma.t) (a1 a2 : string)
  (u : Qc * Qc) :
  PrisonersDilemma.init R S T P = Ok g ->
  PrisonersDilemma.play g a1 a2 = Ok u -> a1 ∈ ["C"; "D"] /\ a2 ∈ ["C"; "D"].
Proof.
  intros [_ Hm]%pd_init_inv. unfold PrisonersDilemma.play. rewrite Hm. intros Hu.
  apply (matrix_lookup_domain (R, R) (S, T) (T, S) (P, P) "C" "D").
  cbn zeta. destruct (_ !! (a1, a2)); [by eexists | discriminate].
Qed.

(** In every Prisoner's Dilemma that can be constructed, defecting pays
    strictly more than cooperating against either action of the opponent,
    and yet mutual cooperation pays each player strictly more than mutual
    defection. *)
Theorem pd_defection_dominates (R S T P : Qc) (g : PrisonersDilemma.t) :
  PrisonersDilemma.init R S T P = Ok g ->
  (forall (o : string) (c c' d d' : Qc),
     PrisonersDilemma.play g "C" o = Ok (c, c') ->
     PrisonersDilemma.play g "D" o = Ok (d, d') ->
     (c < d)%Qc) /\
  (forall c c' d d' : Qc,
     PrisonersDilemma.play g "C" "C" = Ok (c, c') ->
     PrisonersDilemma.play g "D" "D" = Ok (d, d') ->
     (d < c)%Qc /\ (d' < c')%Qc).
Proof.
  intros Hinit.
  destruct (pd_init_inv R S T P g Hinit) as [(HRT & HPR & HSP) _].
  destruct (pd_play_values R S T P g Hinit) as (Hcc & Hcd & Hdc & Hdd).
  split.
  - intros o c c' d d' Hc Hd.
    destruct (pd_play_Ok_inv R S T P g "C" o _ Hinit Hc) as [_ H2].
    apply elem_of_cons in H2 as [->|H2];
      [|apply elem_of_cons in H2 as [->|H2]; [|by apply elem_of_nil in H2]].
    + rewrite Hcc in Hc. rewrite Hdc in Hd. by injection Hc as <- <-; injection Hd as <- <-.
    + rewrite Hcd in Hc. rewrite Hdd in Hd. by injection Hc as <- <-; injection Hd as <- <-.
  - intros c c' d d' Hc Hd. rewrite Hcc in Hc. rewrite Hdd in Hd.
    by injection Hc as <- <-; injection Hd as <- <-.
Qed.

Lemma pd_defection_dominates_witness :
  (num 0 < num 4)%Qc /\ (num 0 < num 4)%Qc.
Proof.
  apply (proj2 (pd_defection_dominates (num 4) (num (-1)) (num 6) (num 0) _
                  ltac:(vm_compute; reflexivity)) (num 4) (num 4) (num 0) (num 0));
    vm_compute; reflexivity.
Defined.

(** [CoordinationGame.play] is defined exactly on pairs of the symbols 'A'
    and 'B' (anything else is a KeyError); whatever the three parameters,
    both players receive the same payoff and the order of the two actions
    does not matter. *)
Theorem coordination_play_common_payoff (high low mismatch : Qc) (a1 a2 : string) :
  let g := CoordinationGame.init high low mismatch in
  (CoordinationGame.play g a1 a2 = Raise KeyError
     <-> ~ (a1 ∈ ["A"; "B"] /\ a2 ∈ ["A"; "B"])) /\
  (forall x y, CoordinationGame.play g a1 a2 = Ok (x, y) ->
     x = y /\ CoordinationGame.play g a2 a1 = Ok (x, y)) /\
  (a1 ∈ ["A"; "B"] -> a2 ∈ ["A"; "B"] -> a1 <> a2 ->
     CoordinationGame.play g a1 a2 = Ok (mismatch, mismatch)).
Proof.
  intros g. subst g. unfold CoordinationGame.play, CoordinationGame.init.
  cbn [CoordinationGame.PAYOFF_MATRIX].
  pose proof (matrix_lookup_domain (high, high) (mismatch, mismatch)
                (mismatch, mismatch) (low, low) "A" "B" a1 a2) as Hdom.
  cbn zeta in Hdom. split; [|split].
  - rewrite <- Hdom. destruct (_ !! (a1, a2)) as [u|].
    + split; [discriminate|]. intros H. destruct H. by eexists.
    + split; [|done]. by intros _ [? [=]].
  - intros x y Hxy.
    assert (a1 ∈ ["A"; "B"] /\ a2 ∈ ["A"; "B"]) as [H1 H2].
    { apply Hdom. destruct (_ !! (a1, a2)); [by eexists | discriminate]. }
    clear Hdom.
    apply elem_of_cons in H1 as [->|H1]; [|apply elem_of_cons in H1 as [->|H1];
      [|by apply elem_of_nil in H1]];
    (apply elem_of_cons in H2 as [->|H2]; [|apply elem_of_cons in H2 as [->|H2];
      [|by apply elem_of_nil in H2]]);
    vm_compute in Hxy; injection Hxy as <- <-; split; reflexivity.
  - clear Hdom. intros H1 H2 Hne.
    apply elem_of_cons in H1 as [->|H1]; [|apply elem_of_cons in H1 as [->|H1];
      [|by apply elem_of_nil in H1]];
    (apply elem_of_cons in H2 as [->|H2]; [|apply elem_of_cons in H2 as [->|H2];
      [|by apply elem_of_nil in H2]]); done.
Qed.

Lemma coordination_play_common_payoff_witness :
  CoordinationGame.play (CoordinationGame.init (num 4) (num 2) (num 0)) "A" "B"
  = Ok (num 0, num 0).
Proof.
  pose proof (coordination_play_common_payoff (num 4) (num 2) (num 0) "A" "B") as H.
  cbv zeta in H. destruct H as (_ & _ & H).
  apply H.
  - by left.
  - right. by left.
  - by intros [=].
Defined.









(** * Further properties of the agents *)

(** ** Bookkeeping of the base agent *)

Lemma base_update (a : Agent) (my opp : string) (p : Qc) :
  base (update a my opp p) = BaseAgent.update (base a) my opp p.
Proof.
  destruct a; try reflexivity.
  unfold update. by rewrite q_read_eq, q_row_eq.
Qed.

Lemma base_reset (a : Agent) : base (reset a) = BaseAgent.reset (base a).
Proof. by destruct a. Qed.

Lemma agent_type_update (a : Agent) (my opp : string) (p : Qc) :
  agent_type_of (update a my opp p) = agent_type_of a.
Proof.
  destruct a; try reflexivity.
  unfold update. by rewrite q_read_eq, q_row_eq.
Qed.

(** [choose_action] returns an agent of the same class with the same
    inherited state. *)
Lemma choose_action_base (a : Agent) (gt : string) (g : rng) :
  base (choose_action a gt g).1.2 = base a /\
  agent_type_of (choose_action a gt g).1.2 = agent_type_of a.
Proof.
  destruct a as [b|b|b p|b|b th la|b trig|b al ga ep t|b counts]; cbn [choose_action].
  - by repeat destruct (String.eqb _ _).
  - by repeat destruct (String.eqb _ _).
  - destruct (random_random g) as [u g1]. by destruct (Qc_ltb u p).
  - by destruct (BaseAgent.get_last_opponent_action b).
  - destruct (last (BaseAgent.memory b)) as [rec|]; [|done].
    by destruct (Qc_geb (payoff rec) th).
  - by destruct trig.
  - destruct (random_random g) as [u g1]. destruct (Qc_ltb u ep).
    + by destruct (random_choice g1 _).
    + destruct (fold_left _ _ _) as [q_values t']. by destruct (random_choice g1 _).
  - destruct (_ <? 2); [done|]. destruct (String.eqb gt "PD").
    + by destruct (_get_opponent_probability counts "C").
    + by destruct (_get_opponent_probability counts "A").
Qed.

Lemma most_recent_append {A} (k : nat) (l : list A) (x : A) :
  deque_append k (most_recent k l) x = most_recent k (l ++ [x]).
Proof.
  unfold deque_append, most_recent.
  rewrite !length_app, length_drop. cbn [length].
  destruct (Nat.ltb_spec k (length l - (length l - k) + 1)).
  - assert (k <= length l)%nat by lia.
    replace (length l + 1 - k)%nat with ((length l - k) + 1)%nat by lia.
    rewrite <- drop_drop, drop_app_le by lia.
    by destruct (drop (length l - k) l ++ [x]).
  - replace (length l - k)%nat with 0%nat by lia.
    replace (length l + 1 - k)%nat with 0%nat by lia. by rewrite !drop_0.
Qed.

Lemma records_snoc (h : list (string * string * Qc)) (my opp : string) (p : Qc) :
  records (h ++ [(my, opp, p)]) =
    records h ++ [{| my_action := my; opponent_action := opp; payoff := p;
                     round := Z.of_nat (length h) |}].
Proof. unfold records. rewrite imap_app. simpl. by rewrite Nat.add_0_r. Qed.


Lemma py_sum_snoc (xs : list Qc) (x : Qc) : py_sum (xs ++ [x]) = (py_sum xs + x)%Qc.
Proof. unfold py_sum. by rewrite fold_left_app. Qed.

Lemma bookkeeping_step (cap : nat) (id : Z) (a : Agent) (g : rng) (e : event)
  (h : list (string * string * Qc)) :
  bookkeeping cap id (base a) h ->
  bookkeeping cap id (base (step (a, g) e).1) (history_step h e).
Proof.
  intros (Hid & Hcap & Hmem & Htot & Hround).
  destruct e as [gt|my opp p|]; unfold step; cbn [fst snd history_step].
  - destruct (choose_action a gt g) as [[x a'] g'] eqn:Hc.
    pose proof (proj1 (choose_action_base a gt g)) as Hb. rewrite Hc in Hb.
    cbn [fst snd] in *. rewrite Hb. by repeat split.
  - rewrite base_update. unfold BaseAgent.update, bookkeeping.
    cbn [BaseAgent.id BaseAgent.memory BaseAgent.memory_length
         BaseAgent.total_payoff BaseAgent.round_count].
    split; [done|]. split; [done|]. split; [|split].
    + rewrite Hcap, Hmem, Hround, records_snoc. apply most_recent_append.
    + rewrite Htot, fmap_app. change ([(my, opp, p)].*2) with [p].
      by rewrite py_sum_snoc.
    + rewrite Hround, length_app. simpl. lia.
  - rewrite base_reset. unfold BaseAgent.reset. by repeat split.
Qed.

Lemma bookkeeping_run (cap : nat) (id : Z) (evs : list event) (a : Agent) (g : rng)
  (h : list (string * string * Qc)) :
  bookkeeping cap id (base a) h ->
  bookkeeping cap id (base (run evs (a, g)).1) (fold_left history_step evs h).
Proof.
  revert a g h. induction evs as [|e evs IH]; intros a g h Hinv; [done|].
  cbn [run fold_left]. destruct (step (a, g) e) as [a' g'] eqn:Hstep.
  apply (IH a' g'). pose proof (bookkeeping_step cap id a g e h Hinv) as H.
  by rewrite Hstep in H.
Qed.

Lemma agent_type_run (evs : list event) (a : Agent) (g : rng) :
  agent_type_of (run evs (a, g)).1 = agent_type_of a.
Proof.
  revert a g. induction evs as [|e evs IH]; intros a g; [done|].
  cbn [run fold_left]. destruct (step (a, g) e) as [a' g'] eqn:Hstep.
  etransitivity; [apply (IH a' g')|].
  destruct e as [gt|my opp p|]; unfold step in Hstep;
    cbn [fst snd] in Hstep.
  - pose proof (proj2 (choose_action_base a gt g)) as Hb.
    destruct (choose_action a gt g) as [[x a''] g'']. by injection Hstep as <- _.
  - injection Hstep as <- _. apply agent_type_update.
  - injection Hstep as <- _. by destruct a.
Qed.

(** What the constructors set up: the inherited state of a new agent. *)
Lemma create_base (t : string) (id : Z) (kwargs : gmap string Qc) (a : Agent) :
  AgentFactory.create t id kwargs = Ok a ->
  base a = BaseAgent.init id (capacity t) /\ agent_type_of a = t.
Proof.
  unfold AgentFactory.create. intros Hc.
  destruct (decide (t ∈ registry)) as [Ht|Ht].
  - registry_cases Ht; vm_compute in Hc;
      repeat match type of Hc with
             | context [match ?x with _ => _ end] => destruct x
             end;
      try discriminate; by injection Hc as <-.
  - apply registry_lookup_None in Ht. by rewrite Ht in Hc.
Qed.

Lemma created_bookkeeping (t : string) (id : Z) (kwargs : gmap string Qc) (a0 : Agent)
  (evs : list event) (g : rng) :
  AgentFactory.create t id kwargs = Ok a0 ->
  bookkeeping (capacity t) id (base (run evs (a0, g)).1) (history evs).
Proof.
  intros [Hb _]%create_base. apply bookkeeping_run. rewrite Hb.
  by repeat split.
Qed.

Lemma most_recent_length {A} (k : nat) (l : list A) :
  (length (most_recent k l) <= k)%nat.
Proof. unfold most_recent. rewrite length_drop. lia. Qed.

(** Whatever the session, the memory of an agent built by the factory
    holds exactly the most recent [update] calls since the last [reset],
    oldest first and tagged with their round, as many as the capacity of
    its class allows (none for the static strategies, one for Tit-for-Tat
    and Pavlov, 50 for the Q-learner, 100 for Grim Trigger and the
    frequency-based responder); it never exceeds that capacity. *)
Theorem session_memory_is_recent_history
  (t : string) (id : Z) (kwargs : gmap string Qc) (a0 : Agent)
  (evs : list event) (g : rng) :
  AgentFactory.create t id kwargs = Ok a0 ->
  let b := base (run evs (a0, g)).1 in
  BaseAgent.memory b = most_recent (capacity t) (records (history evs)) /\
  (length (BaseAgent.memory b) <= capacity t)%nat.
Proof.
  intros Hc b. destruct (created_bookkeeping t id kwargs a0 evs g Hc)
    as (_ & _ & Hmem & _). fold b in Hmem.
  split; [done|]. rewrite Hmem. apply most_recent_length.
Qed.

Lemma session_memory_is_recent_history_witness :
  let b := base (run [Update "C" "D" (num 0); Choose "PD"; Update "D" "C" (num 5)]
                   (TitForTat (BaseAgent.init 3 1), rng0)).1 in
  BaseAgent.memory b
  = most_recent (capacity "TFT")
      (records (history [Update "C" "D" (num 0); Choose "PD"; Update "D" "C" (num 5)])) /\
  (length (BaseAgent.memory b) <= capacity "TFT")%nat.
Proof.
  apply (session_memory_is_recent_history "TFT" 3 ∅). vm_compute. reflexivity.
Defined.

(** The payoff total of an agent is the sum of the payoffs passed to
    [update] since the last [reset], and its round count is the number of
    those calls; [choose_action] changes neither. *)
Theorem session_payoff_total_and_round_count
  (t : string) (id : Z) (kwargs : gmap string Qc) (a0 : Agent)
  (evs : list event) (g : rng) :
  AgentFactory.create t id kwargs = Ok a0 ->
  let b := base (run evs (a0, g)).1 in
  BaseAgent.total_payoff b = py_sum ((history evs).*2) /\
  BaseAgent.round_count b = Z.of_nat (length (history evs)).
Proof.
  intros Hc b. by destruct (created_bookkeeping t id kwargs a0 evs g Hc)
    as (_ & _ & _ & Htot & Hround).
Qed.

Lemma session_payoff_total_and_round_count_witness :
  let b := base (run [Update "C" "D" (num 0); Reset; Update "D" "C" (num 5);
                      Choose "PD"; Update "D" "D" (num 1)]
                   (GrimTrigger (BaseAgent.init 5 100) false, rng0)).1 in
  BaseAgent.total_payoff b
  = py_sum ((history [Update "C" "D" (num 0); Reset; Update "D" "C" (num 5);
                      Choose "PD"; Update "D" "D" (num 1)]).*2) /\
  BaseAgent.round_count b
  = Z.of_nat (length (history [Update "C" "D" (num 0); Reset; Update "D" "C" (num 5);
                               Choose "PD"; Update "D" "D" (num 1)])).
Proof.
  apply (session_payoff_total_and_round_count "Grim" 5 ∅). vm_compute. reflexivity.
Defined.

(** No call changes who an agent is: after any session it still has the
    id it was created with, the class of its strategy identifier and the
    memory capacity of that class. *)
Theorem session_keeps_identity
  (t : string) (id : Z) (kwargs : gmap string Qc) (a0 : Agent)
  (evs : list event) (g : rng) :
  AgentFactory.create t id kwargs = Ok a0 ->
  let a := (run evs (a0, g)).1 in
  agent_id a = id /\ agent_type_of a = t /\
  BaseAgent.memory_length (base a) = capacity t.
Proof.
  intros Hc a. destruct (created_bookkeeping t id kwargs a0 evs g Hc)
    as (Hid & Hcap & _). split; [done|]. split; [|done].
  subst a. rewrite agent_type_run. by apply create_base in Hc as [_ ?].
Qed.

Lemma session_keeps_identity_witness :
  let a := (run [Choose "PD"; Update "C" "D" (num 0); Reset; Choose "COORD"]
              (Pavlov (BaseAgent.init 4 1) (num 2) None, rng0)).1 in
  agent_id a = 4 /\ agent_type_of a = "Pavlov" /\
  BaseAgent.memory_length (base a) = capacity "Pavlov".
Proof.
  apply (session_keeps_identity "Pavlov" 4 ∅). vm_compute. reflexivity.
Defined.

(** ** The static and reactive strategies *)

(** Only the randomized agent and the Q-learner draw from the random
    source: for every other strategy [choose_action] leaves the source as
    it found it and returns the same action whatever the source holds. *)
Theorem deterministic_strategies_draw_nothing
  (a : Agent) (game_type : string) (g g' : rng) :
  agent_type_of a ∉ ["Random"; "Q-Learn"] ->
  (choose_action a game_type g).2 = g /\
  action_of (choose_action a game_type g) = action_of (choose_action a game_type g').
Proof.
  intros Hty. unfold action_of.
  destruct a as [b|b|b p|b|b th la|b trig|b al ga ep t|b counts]; cbn [choose_action].
  - by repeat destruct (String.eqb _ _).
  - by repeat destruct (String.eqb _ _).
  - exfalso. apply Hty. by left.
  - by destruct (BaseAgent.get_last_opponent_action b).
  - destruct (last (BaseAgent.memory b)) as [rec|]; [|done].
    by destruct (Qc_geb (payoff rec) th).
  - by destruct trig.
  - exfalso. apply Hty. right. by left.
  - destruct (_ <? 2); [done|]. destruct (String.eqb game_type "PD").
    + by destruct (_get_opponent_probability counts "C").
    + by destruct (_get_opponent_probability counts "A").
Qed.

Lemma deterministic_strategies_draw_nothing_witness :
  (choose_action (TitForTat (BaseAgent.init 3 1)) "PD" rng0).2 = rng0 /\
  action_of (choose_action (TitForTat (BaseAgent.init 3 1)) "PD" rng0)
  = action_of (choose_action (TitForTat (BaseAgent.init 3 1)) "PD" (advance rng0)).
Proof.
  apply (deterministic_strategies_draw_nothing (TitForTat (BaseAgent.init 3 1))).
  intros H. apply elem_of_cons in H as [H|H]; [discriminate|].
  apply elem_of_cons in H as [H|H]; [discriminate|]. by apply elem_of_nil in H.
Defined.

Lemma run_class_AllC (evs : list event) (a : Agent) (g : rng) :
  agent_type_of a = "AllC" -> exists b, (run evs (a, g)).1 = AlwaysCooperate b.
Proof.
  intros Hty. rewrite <- (agent_type_run evs a g) in Hty.
  destruct (run evs (a, g)).1; try discriminate. by eexists.
Qed.

Lemma run_class_AllD (evs : list event) (a : Agent) (g : rng) :
  agent_type_of a = "AllD" -> exists b, (run evs (a, g)).1 = AlwaysDefect b.
Proof.
  intros Hty. rewrite <- (agent_type_run evs a g) in Hty.
  destruct (run evs (a, g)).1; try discriminate. by eexists.
Qed.

(** Always-Cooperate and Always-Defect are invariant to history: after any
    session they return the symbol they return when new, which depends on
    the game type only ('A' respectively 'B' for 'COORD', 'C' respectively
    'D' for 'PD' and for any other token). *)
Theorem static_agents_ignore_history
  (id : Z) (evs : list event) (g g' : rng) (game_type : string) :
  action_of (choose_action (run evs (AlwaysCooperate (BaseAgent.init id 0), g)).1
               game_type g')
    = (if decide (game_type = "COORD") then "A" else "C") /\
  action_of (choose_action (run evs (AlwaysDefect (BaseAgent.init id 0), g)).1
               game_type g')
    = (if decide (game_type = "COORD") then "B" else "D").
Proof.
  split.
  - destruct (run_class_AllC evs (AlwaysCooperate (BaseAgent.init id 0)) g eq_refl)
      as [b ->]. unfold action_of. cbn [choose_action].
    destruct (String.eqb_spec game_type "PD") as [->|_]; [done|].
    destruct (String.eqb_spec game_type "COORD"), (decide (game_type = "COORD")); done.
  - destruct (run_class_AllD evs (AlwaysDefect (BaseAgent.init id 0)) g eq_refl)
      as [b ->]. unfold action_of. cbn [choose_action].
    destruct (String.eqb_spec game_type "PD") as [->|_]; [done|].
    destruct (String.eqb_spec game_type "COORD"), (decide (game_type = "COORD")); done.
Qed.

Lemma last_most_recent {A} (k : nat) (l : list A) :
  (0 < k)%nat -> last (most_recent k l) = last l.
Proof.
  intros Hk. unfold most_recent. destruct l as [|x l]; [done|].
  rewrite !last_lookup, lookup_drop, length_drop. f_equal. simpl. lia.
Qed.

Lemma last_records_opponent (h : list (string * string * Qc)) :
  opponent_action <$> last (records h) = (fun x => x.1.2) <$> last h.
Proof.
  destruct h as [|x h _] using rev_ind; [done|].
  destruct x as [[my opp] p]. by rewrite records_snoc, !last_snoc.
Qed.

(** Tit-for-Tat cooperates while it has seen no opponent action since its
    creation or last [reset]; otherwise it returns exactly the opponent
    action of the most recent [update], whatever came before and whatever
    the game type. *)
Theorem tit_for_tat_replays_last_opponent_action
  (id : Z) (evs : list event) (g g' : rng) (game_type : string) :
  action_of (choose_action (run evs (TitForTat (BaseAgent.init id 1), g)).1 game_type g')
  = match last (history evs) with
    | Some x => x.1.2
    | None => cooperate_symbol game_type
    end.
Proof.
  pose proof (bookkeeping_run 1 id evs (TitForTat (BaseAgent.init id 1)) g []) as Hinv.
  destruct Hinv as (_ & _ & Hmem & _); [by repeat split|]. fold (history evs) in Hmem.
  pose proof (agent_type_run evs (TitForTat (BaseAgent.init id 1)) g) as Hty.
  destruct (run evs (TitForTat (BaseAgent.init id 1), g)).1 as [| | |b| | | |];
    try discriminate.
  unfold action_of. cbn [choose_action base fst] in *.
  unfold BaseAgent.get_last_opponent_action.
  rewrite Hmem, last_most_recent, last_records_opponent by lia.
  destruct (last (history evs)) as [x|]; [done|]. simpl. apply eqb_PD.
Qed.

Lemma grim_state_step (a : Agent) (g : rng) (e : event) (h : list (string * string * Qc)) :
  grim_state a h -> grim_state (step (a, g) e).1 (history_step h e).
Proof.
  intros [b ->]. destruct e as [gt|my opp p|]; unfold step; cbn [fst snd history_step].
  - cbn [choose_action]. unfold grim_state.
    destruct (bool_decide (defected h)); by exists b.
  - cbn [update]. unfold grim_state. eexists. f_equal. unfold defected.
    destruct (decide (opp ∈ ["D"; "B"])) as [Hopp|Hopp].
    + symmetry. apply bool_decide_eq_true. apply Exists_app. right. by left.
    + apply bool_decide_ext. rewrite Exists_app, Exists_cons, Exists_nil. simpl. tauto.
  - cbn [reset]. unfold grim_state. by eexists.
Qed.

Lemma grim_state_run (evs : list event) (a : Agent) (g : rng)
  (h : list (string * string * Qc)) :
  grim_state a h -> grim_state (run evs (a, g)).1 (fold_left history_step evs h).
Proof.
  revert a g h. induction evs as [|e evs IH]; intros a g h Hinv; [done|].
  cbn [run fold_left]. destruct (step (a, g) e) as [a' g'] eqn:Hstep.
  apply (IH a' g'). pose proof (grim_state_step a g e h Hinv) as H.
  by rewrite Hstep in H.
Qed.

(** Grim Trigger defects exactly when some [update] since its creation or
    last [reset] reported the opponent playing 'D' or 'B'; until then it
    cooperates. *)
Theorem grim_trigger_defects_iff_betrayed
  (id : Z) (evs : list event) (g g' : rng) (game_type : string) :
  action_of (choose_action (run evs (GrimTrigger (BaseAgent.init id 100) false, g)).1
               game_type g')
  = if decide (defected (history evs)) then defect_symbol game_type
    else cooperate_symbol game_type.
Proof.
  destruct (grim_state_run evs (GrimTrigger (BaseAgent.init id 100) false) g [])
    as [b ->].
  { by eexists. }
  fold (history evs). unfold action_of. cbn [choose_action].
  destruct (decide (defected (history evs))) as [H|H].
  - rewrite bool_decide_eq_true_2 by done. cbn [fst]. by rewrite eqb_PD.
  - rewrite bool_decide_eq_false_2 by done. cbn [fst]. by rewrite eqb_PD.
Qed.

(** ** The Q-learner *)

Lemma q_read_stored_or_zero (t : gmap string (gmap string Qc)) (s a s2 a2 : string) :
  stored_or_zero (q_read t s a).2 s2 a2 = stored_or_zero t s2 a2.
Proof.
  rewrite q_read_eq. cbn [snd]. unfold stored_or_zero at 1. unfold stored.
  destruct (decide (s2 = s)) as [->|Hs].
  - rewrite lookup_insert_eq. simpl. destruct (decide (a2 = a)) as [->|Ha].
    + by rewrite lookup_insert_eq.
    + rewrite lookup_insert_ne by done. by rewrite row_lookup.
  - by rewrite lookup_insert_ne.
Qed.

Lemma py_max_fold_upper (rest : list Qc) (x : Qc) :
  let m := fold_left (fun m y => if Qc_gtb y m then y else m) rest x in
  (x <= m)%Qc /\ forall y, y ∈ rest -> (y <= m)%Qc.
Proof.
  revert x. induction rest as [|z rest IH]; intros x; cbn [fold_left].
  - split; [apply Qcle_refl|]. intros y Hy. by apply elem_of_nil in Hy.
  - destruct (Qc_gtb z x) eqn:Hzx.
    + destruct (IH z) as [Hz Hrest]. apply Qc_gtb_lt in Hzx. split.
      * eapply Qcle_trans; [by apply Qclt_le_weak|done].
      * intros y [->|Hy]%elem_of_cons; [done | by apply Hrest].
    + destruct (IH x) as [Hx Hrest]. split; [done|].
      intros y [->|Hy]%elem_of_cons; [|by apply Hrest].
      eapply Qcle_trans; [|exact Hx]. apply Qcnot_lt_le. intros Hlt.
      apply Qc_gtb_lt in Hlt. congruence.
Qed.

Lemma py_max_upper (xs : list Qc) (m : Qc) :
  py_max xs = Some m -> forall x, x ∈ xs -> (x <= m)%Qc.
Proof.
  destruct xs as [|x0 rest]; [discriminate|]. cbn [py_max]. intros [= <-] x.
  destruct (py_max_fold_upper rest x0) as [H0 Hrest].
  intros [->|Hx]%elem_of_cons; [done | by apply Hrest].
Qed.

(** The [q_values] dictionary pairs each candidate action with its stored
    value (zero if unseen), and building it changes no value. *)
Lemma q_values_fold (state : string) (actions : list string)
  (acc : list (string * Qc)) (t : gmap string (gmap string Qc)) :
  let out := fold_left (fun '(acc, t) a =>
                          let '(v, t) := q_read t state a in (acc ++ [(a, v)], t))
                       actions (acc, t) in
  out.1 = acc ++ ((fun a => (a, stored_or_zero t state a)) <$> actions) /\
  forall s a, stored_or_zero out.2 s a = stored_or_zero t s a.
Proof.
  revert acc t. induction actions as [|a actions IH]; intros acc t; cbn [fold_left].
  - cbn zeta. by rewrite app_nil_r.
  - pose proof (q_read_stored_or_zero t state a) as Hread.
    rewrite q_read_eq in Hread |- *. cbn [snd] in Hread.
    destruct (IH (acc ++ [(a, stored_or_zero t state a)])
                 (<[state := <[a := stored_or_zero t state a]> (row t state)]> t))
      as [Hqv Ht].
    cbn zeta in *. split.
    + rewrite Hqv, <- app_assoc, fmap_cons. cbn [app]. do 2 f_equal.
      apply list_fmap_ext. intros _ a' _. by rewrite Hread.
    + intros s a'. by rewrite Ht, Hread.
Qed.

(** When it does not explore (the draw is not below epsilon), the
    Q-learner returns a candidate action whose stored value, an unseen
    pair counting as zero, is maximal among the candidates for the current
    state. *)
Theorem q_learner_greedy_choice_is_optimal
  (b : BaseAgent.t) (alpha gamma epsilon : Qc) (q_table : gmap string (gmap string Qc))
  (game_type : string) (g : rng) :
  ~ (uniform g (pos g) < epsilon)%Qc ->
  let a := action_of (choose_action (QLearningAgent b alpha gamma epsilon q_table)
                        game_type g) in
  a ∈ actions_of game_type /\
  forall a', a' ∈ actions_of game_type ->
    (stored_or_zero q_table (_get_state b) a' <= stored_or_zero q_table (_get_state b) a)%Qc.
Proof.
  intros Hgreedy a. subst a. unfold action_of. cbn [choose_action].
  rewrite (eqb_PD game_type). fold (actions_of game_type).
  unfold random_random. destruct (Qc_ltb _ epsilon) eqn:Hlt.
  { apply Qc_ltb_lt in Hlt. done. }
  pose proof (q_values_fold (_get_state b) (actions_of game_type) [] q_table) as [Hqv _].
  destruct (fold_left _ (actions_of game_type) ([], q_table)) as [q_values t'].
  cbn [fst snd app] in Hqv.
  assert (q_values <> []) as Hne.
  { rewrite Hqv. unfold actions_of. by destruct (decide _). }
  destruct (best_actions_nonempty q_values Hne) as [Hbest _]. cbn zeta in Hbest.
  pose proof (random_choice_elem (advance g) _ Hbest) as Hin.
  destruct (random_choice (advance g) _) as [x g2]. cbn [fst] in *.
  apply list_elem_of_fmap in Hin as ([x' q] & -> & Hin).
  apply list_elem_of_filter in Hin as [Hmax Hin]. cbn [fst].
  apply Qc_eqb_eq in Hmax.
  rewrite Hqv in Hin. apply list_elem_of_fmap in Hin as (x'' & [= -> ->] & Hx).
  split; [done|]. intros a' Ha'.
  destruct (py_max (q_values.*2)) as [m|] eqn:Hpm.
  - cbn [default] in Hmax. rewrite Hmax.
    apply (py_max_upper _ _ Hpm). rewrite Hqv, <- list_fmap_compose.
    apply list_elem_of_fmap. by exists a'.
  - rewrite Hqv in Hpm. unfold actions_of in Hpm. by destruct (decide _).
Qed.

Lemma q_learner_greedy_choice_is_optimal_witness :
  let q_table : gmap string (gmap string Qc) := {["init" := {["D" := num 2]}]} in
  let a := action_of (choose_action
                        (QLearningAgent (BaseAgent.init 6 50) (dec 1 10) (dec 95 100)
                           (dec 1 10) q_table) "PD"
                        {| uniform := fun _ => dec 1 2; index := fun _ => 0%nat; pos := 0 |}) in
  a ∈ actions_of "PD" /\
  forall a', a' ∈ actions_of "PD" ->
    (stored_or_zero q_table (_get_state (BaseAgent.init 6 50)) a'
     <= stored_or_zero q_table (_get_state (BaseAgent.init 6 50)) a)%Qc.
Proof.
  apply (q_learner_greedy_choice_is_optimal (BaseAgent.init 6 50)).
  vm_compute. intros H. discriminate H.
Defined.

(** [choose_action] never changes what the Q-learner has learned: the
    agent it leaves has the same inherited state and rates, and every
    state-action pair has the value it had (the reads only materialize
    zeros for unseen pairs). *)
Theorem q_learner_choice_keeps_values
  (b : BaseAgent.t) (alpha gamma epsilon : Qc) (q_table : gmap string (gmap string Qc))
  (game_type : string) (g : rng) :
  exists q_table',
    (choose_action (QLearningAgent b alpha gamma epsilon q_table) game_type g).1.2
      = QLearningAgent b alpha gamma epsilon q_table' /\
    forall s a, stored_or_zero q_table' s a = stored_or_zero q_table s a.
Proof.
  cbn [choose_action]. destruct (random_random g) as [u g1].
  destruct (Qc_ltb u epsilon).
  - destruct (random_choice g1 _) as [x g2]. by exists q_table.
  - match goal with |- context [fold_left ?f ?l ([], q_table)] =>
      pose proof (q_values_fold (_get_state b) l [] q_table) as [_ Ht];
      destruct (fold_left f l ([], q_table)) as [q_values t']
    end.
    destruct (random_choice g1 _) as [x g2]. by exists t'.
Qed.



